(** * Breathable spacing: a shallow embedding of
      [scripts/apply_breathable_spacing.py]

    The script reads a Rust source file, splits it into lines (terminators
    kept), runs five passes that only insert or drop blank lines, joins the
    lines again and writes the file back when the text changed.

    Conventions of the embedding.
    - A Python [str] is a list of Unicode code points ([N]); a literal of the
      source is written [lit "..."].
    - [str.strip], [str.splitlines] and the regex class [\s] use CPython's
      whitespace and line-break tables, which are small and written out
      below.  The regex assertion [\b] needs CPython's alphanumeric table;
      on ASCII it is written out, above ASCII it is the section variable
      [uni_alnum] (the Unicode character database is not part of the
      repository).
    - Every loop of the source is a recursive function that threads the
      loop's variables ([out], [brace_depth], [prev_nonblank], [blank_run])
      as arguments; [lines[i:]] is the list still to be read. *)

From Stdlib Require Import List NArith ZArith Bool Arith Lia String Ascii.
From Stdlib Require Import DecimalString.
Import ListNotations.

Set Implicit Arguments.

(* ================================================================== *)
(** ** Python strings *)

Module Py.

Definition char := N.
Definition str := list char.

(** A source literal, character by character. *)
Definition lit (s : string) : str :=
  List.map N_of_ascii (list_ascii_of_string s).

(** The line feed, Python's ["\n"]. *)
Definition nl : str := [10%N].

(** A line of source text ended by a line feed. *)
Definition ln (s : string) : str := lit s ++ nl.

(** [str(n)] *)
Definition decimal (n : nat) : str :=
  lit (NilEmpty.string_of_uint (Nat.to_uint n)).

Definition isempty (s : str) : bool :=
  match s with [] => true | _ :: _ => false end.

Fixpoint str_eqb (a b : str) : bool :=
  match a, b with
  | [], [] => true
  | x :: a', y :: b' => N.eqb x y && str_eqb a' b'
  | _, _ => false
  end.

Section Tables.
Local Open Scope N_scope.

(** [Py_UNICODE_ISSPACE]: what [str.strip()] removes and what [\s] matches. *)
Definition isspace (c : char) : bool :=
  ((9 <=? c) && (c <=? 13)) || ((28 <=? c) && (c <=? 32))
  || (c =? 133) || (c =? 160) || (c =? 5760)
  || ((8192 <=? c) && (c <=? 8202))
  || (c =? 8232) || (c =? 8233) || (c =? 8239) || (c =? 8287)
  || (c =? 12288).

(** [Py_UNICODE_ISLINEBREAK]: where [str.splitlines()] cuts. *)
Definition islinebreak (c : char) : bool :=
  ((10 <=? c) && (c <=? 13)) || ((28 <=? c) && (c <=? 30))
  || (c =? 133) || (c =? 8232) || (c =? 8233).

(** [A-Za-z0-9_]. *)
Definition ascii_word (c : char) : bool :=
  ((48 <=? c) && (c <=? 57)) || ((65 <=? c) && (c <=? 90))
  || ((97 <=? c) && (c <=? 122)) || (c =? 95).

End Tables.

Fixpoint lstrip (s : str) : str :=
  match s with
  | [] => []
  | c :: t => if isspace c then lstrip t else s
  end.

Fixpoint rstrip (s : str) : str :=
  match s with
  | [] => []
  | c :: t =>
      match rstrip t with
      | [] => if isspace c then [] else [c]
      | r => c :: r
      end
  end.

(** [s.strip()] *)
Definition strip (s : str) : str := rstrip (lstrip s).

(** [s.startswith(p)] *)
Fixpoint startswith (s p : str) : bool :=
  match p, s with
  | [], _ => true
  | x :: p', y :: s' => N.eqb x y && startswith s' p'
  | _ :: _, [] => false
  end.

(** [s.startswith((p1, ..., pn))] *)
Definition startswith_any (s : str) (ps : list str) : bool :=
  existsb (startswith s) ps.

(** [s.endswith(p)] *)
Definition endswith (s p : str) : bool := startswith (rev s) (rev p).

(** [sub in s] *)
Fixpoint contains (sub s : str) : bool :=
  startswith s sub
  || match s with [] => false | _ :: t => contains sub t end.

(** [s.count(c)] for a one-character [c]. *)
Fixpoint count (s : str) (c : char) : Z :=
  match s with
  | [] => 0%Z
  | x :: t => ((if N.eqb x c then 1 else 0) + count t c)%Z
  end.

(** [txt.splitlines(keepends=True)]: [cur] is the line being read.  A
    carriage return directly followed by a line feed is one terminator. *)
Fixpoint splitlines_from (cur : str) (s : str) : list str :=
  match s with
  | [] => if isempty cur then [] else [cur]
  | c :: t =>
      if islinebreak c then
        if N.eqb c 13 then
          match t with
          | c' :: t' =>
              if N.eqb c' 10
              then (cur ++ [c; c']) :: splitlines_from [] t'
              else (cur ++ [c]) :: splitlines_from [] t
          | [] => (cur ++ [c]) :: splitlines_from [] t
          end
        else (cur ++ [c]) :: splitlines_from [] t
      else splitlines_from (cur ++ [c]) t
  end.

Definition splitlines (txt : str) : list str := splitlines_from [] txt.

(** ["".join(lines)] *)
Definition join (lines : list str) : str := List.concat lines.

End Py.

Import Py.

(* ================================================================== *)
(** ** The regular expressions of the two declaration passes *)

Module Re.

(** The fragment of [re] syntax the script uses. *)
Inductive re : Type :=
| Bol                       (* ^   *)
| Lit (s : str)             (* literal text *)
| Spaces                    (* \s+ *)
| WordB                     (* \b  *)
| Seq (r1 r2 : re)
| Alt (r1 r2 : re)
| Opt (r : re).             (* (?: r )? *)

Section Matcher.

(** [Py_UNICODE_ISALNUM] above ASCII. *)
Variable uni_alnum : char -> bool.

(** [\w] *)
Definition isword (c : char) : bool :=
  ascii_word c || (N.leb 128 c && uni_alnum c).

Definition isword_opt (c : option char) : bool :=
  match c with Some c => isword c | None => false end.

(** One or more [\s], longest first, then [k] on what is left; [prev] is the
    character before the cursor. *)
Fixpoint spaces_then (k : option char -> str -> bool) (s : str) : bool :=
  match s with
  | [] => false
  | c :: t => isspace c && (spaces_then k t || k (Some c) t)
  end.

(** Backtracking matcher in continuation style: [matches r k prev s] holds
    when [r] matches a prefix of [s] (with [prev] the character before it,
    [None] at the start of the string) and [k] accepts the rest. *)
Fixpoint matches (r : re) (k : option char -> str -> bool)
                 (prev : option char) (s : str) : bool :=
  match r with
  | Bol => match prev with None => k prev s | Some _ => false end
  | Lit p =>
      startswith s p
      && k (match rev p with [] => prev | c :: _ => Some c end)
           (skipn (List.length p) s)
  | Spaces => spaces_then k s
  | WordB => xorb (isword_opt prev) (isword_opt (hd_error s)) && k prev s
  | Seq r1 r2 => matches r1 (matches r2 k) prev s
  | Alt r1 r2 => matches r1 k prev s || matches r2 k prev s
  | Opt r1 => matches r1 k prev s || k prev s
  end.

(** [pattern.match(line)] as a truth value. *)
Definition re_match (r : re) (line : str) : bool :=
  matches r (fun _ _ => true) None line.

End Matcher.

(** [a|b|...] *)
Fixpoint alts (ws : list str) : re :=
  match ws with
  | [] => Lit []
  | [w] => Lit w
  | w :: rest => Alt (Lit w) (alts rest)
  end.

(** [(?:pub\s+)?] *)
Definition opt_pub : re := Opt (Seq (Lit (lit "pub")) Spaces).

(** [^(?:pub\s+)?(?:struct|enum|trait|impl|fn)\b] *)
Definition item_start_re : re :=
  Seq Bol (Seq opt_pub
    (Seq (alts [lit "struct"; lit "enum"; lit "trait"; lit "impl"; lit "fn"])
         WordB)).

(** [^(?:pub\s+)?(?:use|mod)\b] *)
Definition use_mod_re : re :=
  Seq Bol (Seq opt_pub (Seq (alts [lit "use"; lit "mod"]) WordB)).

(** [^(?:pub\s+)?use\s+] *)
Definition use_re : re :=
  Seq Bol (Seq opt_pub (Seq (Lit (lit "use")) Spaces)).

(** [^(?:pub\s+)?mod\s+] *)
Definition mod_re : re :=
  Seq Bol (Seq opt_pub (Seq (Lit (lit "mod")) Spaces)).

End Re.

Import Re.

(* ================================================================== *)
(** ** The five passes *)

Definition line := str.

(** [line.strip() == ""] *)
Definition is_blank (l : line) : bool := isempty (strip l).

(** [out and out[-1].strip() != ""] *)
Definition last_nonblank (out : list line) : bool :=
  match out with
  | [] => false
  | _ :: _ => negb (is_blank (last out []))
  end.

(** [if out and out[-1].strip() != "": out.append("\n")] *)
Definition sep (out : list line) : list line :=
  if last_nonblank out then out ++ [nl] else out.

(** The look-ahead [while j < len(lines) and lines[j].strip() == ""] of
    inside_fn_blank_lines: the lines from the first non-blank one on. *)
Fixpoint dropwhile_blank (lines : list line) : list line :=
  match lines with
  | [] => []
  | l :: rest => if is_blank l then dropwhile_blank rest else lines
  end.

(** [line.strip().startswith(("#[", "//!", "///"))] *)
Definition attr_or_doc (l : line) : bool :=
  startswith_any (strip l) [lit "#["; lit "//!"; lit "///"].

Section Passes.

Variable uni_alnum : char -> bool.

(** *** ensure_single_blank_between_items *)

Definition starts_item (l : line) : bool :=
  re_match uni_alnum item_start_re l || re_match uni_alnum use_mod_re l.

Fixpoint ensure_loop (out lines : list line) : list line :=
  match lines with
  | [] => out
  | line :: rest =>
      let out := out ++ [line] in
      match rest with
      | [] => ensure_loop out rest
      | next_line :: _ =>
          if starts_item next_line then
            if is_blank line then ensure_loop out rest
            else if attr_or_doc line then ensure_loop out rest
            else ensure_loop (out ++ [nl]) rest
          else ensure_loop out rest
      end
  end.

Definition ensure_single_blank_between_items (lines : list line) : list line :=
  ensure_loop [] lines.

(** *** group_import_blocks *)

Definition is_import (l : line) : bool :=
  re_match uni_alnum use_re l || re_match uni_alnum mod_re l.

(** The inner [while] of the source: copies the contiguous use/mod lines and
    returns what follows them. *)
Fixpoint take_block (out lines : list line) : list line * list line :=
  match lines with
  | [] => (out, [])
  | l :: rest =>
      if is_import l then take_block (out ++ [l]) rest else (out, lines)
  end.

(** The outer [while i < n]; every turn reads at least one line, so
    [fuel] = [n] turns are enough. *)
Fixpoint group_loop (fuel : nat) (out lines : list line) : list line :=
  match fuel with
  | O => out
  | S fuel' =>
      match lines with
      | [] => out
      | l :: rest =>
          if is_import l then
            let out1 := sep out in
            let '(out2, after) := take_block out1 lines in
            let out3 :=
              match after with
              | [] => out2
              | a :: _ => if negb (is_blank a) then out2 ++ [nl] else out2
              end in
            group_loop fuel' out3 after
          else group_loop fuel' (out ++ [l]) rest
      end
  end.

Definition group_import_blocks (lines : list line) : list line :=
  group_loop (List.length lines) [] lines.

(** *** inside_fn_blank_lines *)

Definition control_starts : list str :=
  [lit "if "; lit "if("; lit "match "; lit "for "; lit "while "; lit "loop";
   lit "return "].

Definition closers : list str := [lit "}"; lit ")"; lit ","; lit "//"].

(** [{] is 123 and [}] is 125. *)
Definition brace_delta (l : line) : Z := (count l 123%N - count l 125%N)%Z.

Fixpoint inside_loop (out : list line) (brace_depth : Z) (lines : list line)
  : list line :=
  match lines with
  | [] => out
  | line :: rest =>
      let stripped := strip line in
      let prev_depth := brace_depth in
      let brace_depth := (brace_depth + brace_delta line)%Z in
      let out := out ++ [line] in
      let out :=
        match rest with
        | [] => out
        | nxt :: _ =>
            let nxt_s := strip nxt in
            if (0 <? prev_depth)%Z then
              let starts_control := startswith_any nxt_s control_starts in
              if starts_control && negb (isempty stripped)
                 && negb (startswith stripped (lit "//"))
              then sep out else out
            else out
        end in
      let out :=
        if endswith stripped (lit "}") && (0 <? prev_depth)%Z then
          match dropwhile_blank rest with
          | [] => out
          | lj :: _ =>
              let nxt_s := strip lj in
              if negb (isempty nxt_s) && negb (startswith_any nxt_s closers)
              then sep out else out
          end
        else out in
      inside_loop out brace_depth rest
  end.

Definition inside_fn_blank_lines (lines : list line) : list line :=
  inside_loop [] 0%Z lines.

End Passes.

(** *** plugin_chain_spacing *)

Definition is_resource_line (s : str) : bool :=
  existsb (fun k => contains k s)
    [lit ".init_resource("; lit ".insert_resource("; lit ".add_event<";
     lit ".add_event("].

Definition is_configure_sets_line (s : str) : bool :=
  contains (lit ".configure_sets(") s.

Definition is_add_startup_line (s : str) : bool :=
  contains (lit ".add_systems(Startup") s.

Definition is_add_update_line (s : str) : bool :=
  contains (lit ".add_systems(Update") s.

(** The three-way [if / elif / elif] of the loop body: does a phase start at
    [s], given the last non-blank text seen? *)
Definition phase_boundary (prev_nonblank s : str) : bool :=
  if is_configure_sets_line s && negb (isempty prev_nonblank)
     && is_resource_line prev_nonblank
  then true
  else if is_add_startup_line s && negb (isempty prev_nonblank)
          && (is_resource_line prev_nonblank
              || is_configure_sets_line prev_nonblank)
  then true
  else if is_add_update_line s && negb (isempty prev_nonblank)
          && (is_add_startup_line prev_nonblank
              || is_configure_sets_line prev_nonblank
              || is_resource_line prev_nonblank)
  then true
  else false.

Fixpoint plugin_loop (out : list line) (prev_nonblank : str)
                     (lines : list line) : list line :=
  match lines with
  | [] => out
  | line :: rest =>
      let s := strip line in
      if negb (isempty s) then
        let out := if phase_boundary prev_nonblank s then sep out else out in
        plugin_loop (out ++ [line]) s rest
      else plugin_loop (out ++ [line]) prev_nonblank rest
  end.

Definition plugin_chain_spacing (lines : list line) : list line :=
  plugin_loop [] [] lines.

(** *** cap_consecutive_blank_lines *)

Fixpoint cap_loop (max_blanks : nat) (out : list line) (blank_run : nat)
                  (lines : list line) : list line :=
  match lines with
  | [] => out
  | line :: rest =>
      if is_blank line then
        let blank_run := S blank_run in
        if blank_run <=? max_blanks
        then cap_loop max_blanks (out ++ [nl]) blank_run rest
        else cap_loop max_blanks out blank_run rest
      else cap_loop max_blanks (out ++ [line]) 0 rest
  end.

Definition cap_consecutive_blank_lines (lines : list line) (max_blanks : nat)
  : list line :=
  cap_loop max_blanks [] 0 lines.

(** *** The pipeline of process_file *)

Section Pipeline.

Variable uni_alnum : char -> bool.

Definition pipeline (lines : list line) : list line :=
  let lines := group_import_blocks uni_alnum lines in
  let lines := ensure_single_blank_between_items uni_alnum lines in
  let lines := plugin_chain_spacing lines in
  let lines := inside_fn_blank_lines lines in
  cap_consecutive_blank_lines lines 2.

(** From the text read to the text compared with it. *)
Definition process_text (txt : str) : str :=
  join (pipeline (splitlines txt)).

End Pipeline.

(* ================================================================== *)
(** ** process_file and main *)

(** The file system, the exceptions and the two [pathlib] calls are the
    script's I/O boundary: they are taken as given.  A [world] is the file
    system together with what the run has done so far: the calls of
    [write_text], and the lines printed on the two streams. *)

Module IO.

Section Boundary.

Variables path FS exn : Type.
Variable path_str : path -> str.                 (* str(p) *)
Variable exn_str : exn -> str.                   (* str(e) *)
Variable read_text : path -> FS -> exn + str.
Variable write_text : path -> str -> FS -> FS * option exn.
Variable uni_alnum : char -> bool.

Record world : Type := World {
  fs : FS;
  written : list (path * str);
  stdout : list str;
  stderr : list str
}.

Inductive result (A : Type) : Type :=
| Ok (a : A)
| Raise (e : exn).
Arguments Ok {A} a.
Arguments Raise {A} e.

(** Computations that read and change the world and may raise. *)
Definition M (A : Type) : Type := world -> result A * world.

Definition ret {A} (a : A) : M A := fun w => (Ok a, w).

Definition bind {A B} (m : M A) (f : A -> M B) : M B :=
  fun w =>
    match m w with
    | (Ok a, w') => f a w'
    | (Raise e, w') => (Raise e, w')
    end.

(** [try: m  except Exception as e: h e] *)
Definition try_except {A} (m : M A) (h : exn -> M A) : M A :=
  fun w =>
    match m w with
    | (Ok a, w') => (Ok a, w')
    | (Raise e, w') => h e w'
    end.

Notation "x <- m ;; k" := (bind m (fun x => k))
  (at level 61, m at next level, right associativity).
Notation "m ;;; k" := (bind m (fun _ => k))
  (at level 61, right associativity).

Definition py_read (p : path) : M str :=
  fun w =>
    match read_text p (fs w) with
    | inl e => (Raise e, w)
    | inr txt => (Ok txt, w)
    end.

Definition py_write (p : path) (txt : str) : M unit :=
  fun w =>
    let '(fs', r) := write_text p txt (fs w) in
    let w' := World fs' (written w ++ [(p, txt)]) (stdout w) (stderr w) in
    match r with
    | Some e => (Raise e, w')
    | None => (Ok tt, w')
    end.

Definition print_out (s : str) : M unit :=
  fun w => (Ok tt, World (fs w) (written w) (stdout w ++ [s]) (stderr w)).

Definition print_err (s : str) : M unit :=
  fun w => (Ok tt, World (fs w) (written w) (stdout w) (stderr w ++ [s])).

Definition process_file (p : path) : M bool :=
  txt <- py_read p ;;
  let new_txt := process_text uni_alnum txt in
  if negb (str_eqb new_txt txt) then
    py_write p new_txt ;;; ret true
  else ret false.

(** [f"Warning: failed to process {p}: {e}"] *)
Definition warning (p : path) (e : exn) : str :=
  lit "Warning: failed to process " ++ path_str p ++ lit ": " ++ exn_str e.

(** The [for p in ...] loop of [main], [changed] being its counter. *)
Fixpoint main_loop (changed : nat) (paths : list path) : M nat :=
  match paths with
  | [] => ret changed
  | p :: rest =>
      changed' <-
        try_except
          (b <- process_file p ;; ret (if b then S changed else changed))
          (fun e => print_err (warning p e) ;;; ret changed) ;;
      main_loop changed' rest
  end.

(** [paths] is what [ROOT.glob("crates/**/*.rs")] yields. *)
Definition main (paths : list path) : M unit :=
  changed <- main_loop 0 paths ;;
  print_out (lit "Files changed: " ++ decimal changed).

(** What processing the files one after the other gives, file by file, when
    nothing stops the batch: the reference the loop of [main] is compared
    with. *)
Fixpoint outcomes (paths : list path) (w : world)
  : list (path * result bool) :=
  match paths with
  | [] => []
  | p :: rest =>
      let '(r, w') := process_file p w in (p, r) :: outcomes rest w'
  end.

Definition changed_count (os : list (path * result bool)) : nat :=
  List.length
    (filter (fun o => match snd o with Ok true => true | _ => false end) os).

Definition warnings (os : list (path * result bool)) : list str :=
  flat_map
    (fun o => match snd o with Raise e => [warning (fst o) e] | _ => [] end)
    os.

End Boundary.

Arguments Ok {exn A} a.
Arguments Raise {exn A} e.

End IO.

Import IO.

(* ================================================================== *)
(** ** Vocabulary of the statements *)

(** *** Lines, runs of blank lines, characters *)

(** The lines whose stripped text is non-empty. *)
Definition nonblank_lines (ls : list line) : list line :=
  filter (fun l => negb (is_blank l)) ls.

(** The lengths of the maximal runs of blank lines, top to bottom: before
    the first non-blank line, between consecutive non-blank lines, and after
    the last one (so [n] non-blank lines give [n + 1] runs, empty runs
    counting 0).  [run] is the length of the run being read. *)
Fixpoint blank_runs_from (run : nat) (ls : list line) : list nat :=
  match ls with
  | [] => [run]
  | l :: rest =>
      if is_blank l then blank_runs_from (S run) rest
      else run :: blank_runs_from 0 rest
  end.

Definition blank_runs (ls : list line) : list nat := blank_runs_from 0 ls.

(** Every blank line is the bare line feed. *)
Definition blanks_bare (ls : list line) : Prop :=
  Forall (fun l => is_blank l = true -> l = nl) ls.

Definition no_linebreak (s : str) : Prop :=
  Forall (fun c => islinebreak c = false) s.

(** A line as [splitlines] cuts it: not empty, and with no line feed before
    its last character. *)
Definition line_shaped (l : line) : Prop :=
  l <> [] /\ ~ In 10%N (removelast l).

(** A whitespace character other than the line feed. *)
Definition stray (c : char) : bool := isspace c && negb (N.eqb c 10).

Definition stray_count (s : str) : nat := List.length (filter stray s).

Definition stray_total (ls : list line) : nat :=
  list_sum (List.map stray_count ls).

(** Does ensure_single_blank_between_items put a blank line after [l],
    [rest] being the lines after it? *)
Definition needs_sep (tbl : char -> bool) (l : line) (rest : list line)
  : bool :=
  match rest with
  | [] => false
  | next_line :: _ =>
      starts_item tbl next_line && negb (is_blank l) && negb (attr_or_doc l)
  end.

(** *** The spacing rules, as the specification words them *)

(** The rules below say where a text has its blank lines already; they are
    written from the contracts of the five components (sections 4.2 to 4.6
    of the specification), one predicate per rule, and not from the loops
    above.  The categories of lines are the classifiers of the source; for
    the control-flow start, where the words of section 4.1 and the prefixes
    of the source part, [control_unspaced] has the prefixes of the source
    and [spec_control_unspaced], further down, the words of section 4.1. *)

(** [P a b] for every line [a] directly followed by [b]. *)
Fixpoint adjacent_all (P : line -> line -> bool) (ls : list line) : bool :=
  match ls with
  | [] => true
  | a :: rest =>
      match rest with
      | [] => true
      | b :: _ => P a b && adjacent_all P rest
      end
  end.

(** 4.2: a run of import-or-module lines has a blank line (or nothing)
    before it and after it. *)
Definition rule_import_blocks (tbl : char -> bool) (ls : list line) : bool :=
  adjacent_all
    (fun a b =>
       implb (negb (is_import tbl a) && is_import tbl b) (is_blank a)
       && implb (is_import tbl a && negb (is_import tbl b)) (is_blank b))
    ls.

(** 4.3: the line before an item-start or import-or-module line is blank or
    an attribute-or-doc line. *)
Definition rule_items (tbl : char -> bool) (ls : list line) : bool :=
  adjacent_all
    (fun a b => implb (starts_item tbl b) (is_blank a || attr_or_doc a)) ls.

(** 4.4: a non-blank line that opens a phase (judged against the last
    non-blank line seen, [prev]) has a blank line directly before it;
    [before_blank] tells whether the line just read was blank. *)
Fixpoint rule_phases_from (prev : str) (before_blank : bool)
                          (ls : list line) : bool :=
  match ls with
  | [] => true
  | l :: rest =>
      if is_blank l then rule_phases_from prev true rest
      else implb (phase_boundary prev (strip l)) before_blank
           && rule_phases_from (strip l) false rest
  end.

Definition rule_phases (ls : list line) : bool :=
  rule_phases_from [] false ls.

(** 4.5, first rule, with the control-flow starts of the source (the
    prefixes of [control_starts], the bare [loop] among them): inside a
    block no such line directly follows a non-blank line that is not a
    comment. *)
Definition control_unspaced (depth : Z) (l : line) (rest : list line)
  : bool :=
  match rest with
  | [] => false
  | nxt :: _ =>
      (0 <? depth)%Z && startswith_any (strip nxt) control_starts
      && negb (is_blank l) && negb (startswith (strip l) (lit "//"))
  end.

(** 4.5, second rule: [l] ends with a closing brace inside a block and the
    next non-blank line is a statement. *)
Definition brace_then_statement (depth : Z) (l : line) (rest : list line)
  : bool :=
  endswith (strip l) (lit "}") && (0 <? depth)%Z
  && match dropwhile_blank rest with
     | [] => false
     | lj :: _ =>
         negb (isempty (strip lj))
         && negb (startswith_any (strip lj) closers)
     end.

Definition next_is_blank (rest : list line) : bool :=
  match rest with
  | [] => false
  | nxt :: _ => is_blank nxt
  end.

(** [P depth l rest] for every line [l], [depth] being the brace depth
    before it and [rest] the lines after it. *)
Fixpoint in_blocks_all (P : Z -> line -> list line -> bool) (depth : Z)
                       (ls : list line) : bool :=
  match ls with
  | [] => true
  | l :: rest =>
      P depth l rest && in_blocks_all P (depth + brace_delta l)%Z rest
  end.

Definition rule_control_flow (ls : list line) : bool :=
  in_blocks_all (fun d l rest => negb (control_unspaced d l rest)) 0%Z ls.

Definition rule_closing_brace (ls : list line) : bool :=
  in_blocks_all
    (fun d l rest => implb (brace_then_statement d l rest) (next_is_blank rest))
    0%Z ls.

(** 4.6: no run of more than two blank lines. *)
Definition rule_cap (ls : list line) : bool :=
  forallb (fun k => k <=? 2) (blank_runs ls).

(** The text has every blank line the rules ask for, and no run of more than
    two. *)
Definition satisfies_spacing_rules (tbl : char -> bool) (ls : list line)
  : bool :=
  rule_import_blocks tbl ls && rule_items tbl ls && rule_phases ls
  && rule_control_flow ls && rule_closing_brace ls && rule_cap ls.

(** No closing brace inside a block is followed by a statement. *)
Definition no_brace_then_statement (ls : list line) : bool :=
  in_blocks_all (fun d l rest => negb (brace_then_statement d l rest)) 0%Z ls.

(** [blanks_bare], computed. *)
Definition blanks_bareb (ls : list line) : bool :=
  forallb (fun l => implb (is_blank l) (str_eqb l nl)) ls.

(** *** One-pass forms of the loops *)

(** What plugin_chain_spacing appends for the lines [ls]; [lb] tells whether
    the output so far ends with a non-blank line, [prev] is the last
    non-blank text seen. *)
Fixpoint plugin_emit (lb : bool) (prev : str) (ls : list line) : list line :=
  match ls with
  | [] => []
  | l :: rest =>
      if is_blank l then l :: plugin_emit false prev rest
      else (if phase_boundary prev (strip l) && lb then [nl] else [])
           ++ l :: plugin_emit true (strip l) rest
  end.

(** What group_import_blocks appends for the lines [ls]; [in_block] tells
    whether the line before was copied by the inner loop, [lb] whether the
    output so far ends with a non-blank line. *)
Fixpoint group_emit (tbl : char -> bool) (in_block lb : bool)
                    (ls : list line) : list line :=
  match ls with
  | [] => []
  | l :: rest =>
      if is_import tbl l then
        (if negb in_block && lb then [nl] else [])
        ++ l :: group_emit tbl true (negb (is_blank l)) rest
      else
        (if in_block && negb (is_blank l) then [nl] else [])
        ++ l :: group_emit tbl false (negb (is_blank l)) rest
  end.

(** [gaps_filled ls out]: [out] is [ls] with a line feed put between some
    pairs of consecutive lines, one at most per pair, and nothing else
    added, removed or changed. *)
Inductive gaps_filled : list line -> list line -> Prop :=
| gaps_nil : gaps_filled [] []
| gaps_last (l : line) : gaps_filled [l] [l]
| gaps_keep (a b : line) (ls out : list line) :
    gaps_filled (b :: ls) out -> gaps_filled (a :: b :: ls) (a :: out)
| gaps_fill (a b : line) (ls out : list line) :
    gaps_filled (b :: ls) out -> gaps_filled (a :: b :: ls) (a :: nl :: out).

(** A line as cap_consecutive_blank_lines emits it when it keeps it. *)
Definition bare (l : line) : line := if is_blank l then nl else l.

(** No line of [ls] lies inside a block: the brace depth before each line is
    at most 0. *)
Definition top_level (ls : list line) : bool :=
  in_blocks_all (fun d _ _ => (d <=? 0)%Z) 0%Z ls.

(** The characters of a text that are not whitespace. *)
Definition ink (s : str) : str := filter (fun c => negb (isspace c)) s.

(** The two lines after a line, when both are blank. *)
Definition next_two_blank (rest : list line) : bool :=
  match rest with
  | a :: b :: _ => is_blank a && is_blank b
  | _ => false
  end.

(** Every closing brace inside a block that is followed by a statement has
    two blank lines after it. *)
Definition braces_double_spaced (d : Z) (ls : list line) : bool :=
  in_blocks_all
    (fun d l rest =>
       implb (brace_then_statement d l rest) (next_two_blank rest))
    d ls.

(** One pass over the lines that puts a line feed after a line when [P]
    says so, given the brace depth before the line and the lines after
    it. *)
Fixpoint weave (P : Z -> line -> list line -> bool) (d : Z)
               (ls : list line) : list line :=
  match ls with
  | [] => []
  | l :: rest =>
      l :: (if P d l rest then [nl] else [])
        ++ weave P (d + brace_delta l)%Z rest
  end.

(** The three texts plugin_chain_spacing puts a blank line before. *)
Definition opens_phase (s : str) : bool :=
  is_configure_sets_line s || is_add_startup_line s || is_add_update_line s.

(** A line that is empty or begins with a whitespace character. *)
Definition indented (l : line) : bool :=
  match l with
  | [] => true
  | c :: _ => isspace c
  end.

(** A line ended by one line-break character that is not a carriage
    return, with no other line break in it. *)
Definition terminated (l : line) : Prop :=
  exists body t,
    l = body ++ [t] /\ no_linebreak body
    /\ islinebreak t = true /\ t <> 13%N.

(** The lines of a text without carriage returns: all terminated, but
    possibly the last, which is then not empty and has no line break. *)
Fixpoint well_terminated (ls : list line) : Prop :=
  match ls with
  | [] => True
  | l :: rest =>
      match rest with
      | [] => terminated l \/ (l <> [] /\ no_linebreak l)
      | _ :: _ => terminated l /\ well_terminated rest
      end
  end.

(** *** The control-flow rule in the words of section 4.1 *)

(** Section 4.1 has a control-flow start begin with one of six keywords,
    each followed by a space or an opening delimiter.  [follows] tells the
    characters that count as a space or an opening delimiter. *)
Definition control_keywords : list str :=
  [lit "if"; lit "match"; lit "for"; lit "while"; lit "loop"; lit "return"].

(** What is left of [s] after the prefix [p], when [s] starts with [p]. *)
Fixpoint after_prefix (s p : str) : option str :=
  match p, s with
  | [], _ => Some s
  | x :: p', y :: s' => if N.eqb x y then after_prefix s' p' else None
  | _ :: _, [] => None
  end.

Definition spec_control_start (follows : char -> bool) (s : str) : bool :=
  existsb
    (fun kw =>
       match after_prefix s kw with
       | Some (c :: _) => follows c
       | _ => false
       end)
    control_keywords.

(** The space and the three opening delimiters. *)
Definition space_or_opening (c : char) : bool :=
  N.eqb c 32 || N.eqb c 40 || N.eqb c 91 || N.eqb c 123.






(** *** The lines of a text, the writes of a batch *)

(** A line terminator: one line-break character, or a carriage return and
    a line feed. *)
Definition line_end (t : str) : Prop :=
  (exists c, t = [c] /\ islinebreak c = true) \/ t = [13%N; 10%N].

(** A line with its terminator: no line-break character before it. *)
Definition cut_line (l : line) : Prop :=
  exists body t, l = body ++ t /\ no_linebreak body /\ line_end t.

(** Lines that all have their terminator, but possibly the last, which is
    then not empty and holds no line-break character. *)
Fixpoint lines_cut (ls : list line) : Prop :=
  match ls with
  | [] => True
  | l :: rest =>
      match rest with
      | [] => cut_line l \/ (l <> [] /\ no_linebreak l)
      | _ :: _ => cut_line l /\ lines_cut rest
      end
  end.

(** [subseq xs ys]: [xs] is [ys] with some of its elements left out. *)
Inductive subseq (A : Type) : list A -> list A -> Prop :=
| subseq_nil : subseq [] []
| subseq_skip (y : A) (xs ys : list A) :
    subseq xs ys -> subseq xs (y :: ys)
| subseq_take (x : A) (xs ys : list A) :
    subseq xs ys -> subseq (x :: xs) (x :: ys).

(** *** Inputs of the worked runs *)

(** A table for the runs below; none of their characters is above ASCII. *)
Definition no_alnum : char -> bool := fun _ => false.

(** A file system of one file, read and written without failure. *)
Definition one_file : Type := str.
Definition read_one (_ : unit) (f : one_file) : unit + str := inr f.
Definition write_one (_ : unit) (txt : str) (_ : one_file)
  : one_file * option unit := (txt, None).

Definition trailing_spaces : str := join [ln "a"; ln "  "; ln "b"].

Definition init_line : line := ln "app.init_resource::<Foo>();".
Definition insert_line : line := ln "app.insert_resource(Foo);".
Definition sets_line : line := ln "app.configure_sets(Update, MySet);".

Definition loop_count_fn : list line :=
  [ln "fn f() {"; ln "    let a = 1;"; ln "    loop_count = 0;"; ln "}"].

Definition nested_if : list line :=
  [ln "fn f() {"; ln "    if x {"; ln "        g();"; ln "    }";
   ln "    h();"; ln "}"].

Definition nested_if_once : list line :=
  [ln "fn f() {"; ln "    if x {"; ln "        g();"; ln "    }"; nl;
   ln "    h();"; ln "}"].

Definition nested_if_twice : list line :=
  [ln "fn f() {"; ln "    if x {"; ln "        g();"; ln "    }"; nl; nl;
   ln "    h();"; ln "}"].


Definition indented_use : line := ln "    use a::b;".
Definition plain_use : line := ln "use a::b;".

(** A text with its blank lines in place. *)
Definition spaced_main : str :=
  join [ln "use a::b;"; nl; ln "fn main() {"; ln "    let x = 1;"; nl;
        ln "    if x {"; ln "        g();"; ln "    }"; ln "}"].

(** A disk of numbered files, [None] being one that cannot be read; writing
    never fails on it. *)
Definition disk : Type := list (option str).

Definition disk_read (p : nat) (d : disk) : str + str :=
  match nth_error d p with
  | Some (Some txt) => inr txt
  | _ => inl (lit "cannot read")
  end.

Fixpoint disk_put (p : nat) (txt : str) (d : disk) : disk :=
  match d, p with
  | [], _ => []
  | _ :: rest, O => Some txt :: rest
  | f :: rest, S p' => f :: disk_put p' txt rest
  end.

Definition disk_write (p : nat) (txt : str) (d : disk)
  : disk * option str :=
  (disk_put p txt d, None).

(** Three files: one to reformat, one unreadable, one already spaced. *)
Definition three_files : disk :=
  [Some (join nested_if); None; Some spaced_main].

(* ================================================================== *)
(** ** Non-blank lines are kept, in order *)

Lemma nonblank_lines_app (a b : list line) :
  nonblank_lines (a ++ b) = nonblank_lines a ++ nonblank_lines b.
Proof. apply filter_app. Qed.

Lemma is_blank_nl : is_blank nl = true.
Proof. reflexivity. Qed.

Lemma nonblank_lines_sep (out : list line) :
  nonblank_lines (sep out) = nonblank_lines out.
Proof.
  unfold sep. destruct (last_nonblank out); [|reflexivity].
  rewrite nonblank_lines_app. simpl. apply app_nil_r.
Qed.

Lemma nonblank_lines_one (l : line) :
  nonblank_lines [l] = if is_blank l then [] else [l].
Proof. unfold nonblank_lines. simpl. destruct (is_blank l); reflexivity. Qed.

Lemma nonblank_lines_nl : nonblank_lines [nl] = [].
Proof. reflexivity. Qed.

Lemma nonblank_lines_cons (l : line) (rest : list line) :
  nonblank_lines (l :: rest) = nonblank_lines [l] ++ nonblank_lines rest.
Proof. apply (nonblank_lines_app [l] rest). Qed.

Create Rewrite HintDb nonblank.
#[local] Hint Rewrite nonblank_lines_app nonblank_lines_sep
  nonblank_lines_nl app_nil_r : nonblank.
#[local] Hint Rewrite <- app_assoc : nonblank.

(** Closes the goals of the preservation lemmas once the loop is unfolded
    and the induction hypothesis used. *)
Ltac nonblank_done :=
  autorewrite with nonblank; reflexivity.

Section Preservation.

Variable uni_alnum : char -> bool.

Lemma ensure_loop_nonblank (lines out : list line) :
  nonblank_lines (ensure_loop uni_alnum out lines)
  = nonblank_lines out ++ nonblank_lines lines.
Proof.
  revert out. induction lines as [|l rest IH]; intros out.
  - simpl. now rewrite app_nil_r.
  - rewrite (nonblank_lines_cons l rest). cbn [ensure_loop].
    destruct rest as [|nx rest'].
    + rewrite IH. nonblank_done.
    + destruct (starts_item uni_alnum nx);
        [destruct (is_blank l); [|destruct (attr_or_doc l)]|];
        rewrite IH; nonblank_done.
Qed.

Lemma take_block_spec (lines out : list line) :
  let '(out', after) := take_block uni_alnum out lines in
  exists block,
    out' = out ++ block /\ lines = block ++ after
    /\ forallb (is_import uni_alnum) block = true
    /\ match after with
       | [] => True
       | a :: _ => is_import uni_alnum a = false
       end.
Proof.
  revert out. induction lines as [|l rest IH]; intros out; simpl.
  - exists []. now rewrite app_nil_r.
  - destruct (is_import uni_alnum l) eqn:E.
    + specialize (IH (out ++ [l])).
      destruct (take_block uni_alnum (out ++ [l]) rest) as [o a].
      destruct IH as (b & -> & -> & Hb & Ha).
      exists (l :: b). simpl. rewrite E, Hb, <- app_assoc. auto.
    + exists []. now rewrite app_nil_r.
Qed.

Lemma group_loop_nonblank (fuel : nat) :
  forall lines out, List.length lines <= fuel ->
    nonblank_lines (group_loop uni_alnum fuel out lines)
    = nonblank_lines out ++ nonblank_lines lines.
Proof.
  induction fuel as [|fuel IH]; intros lines out Hlen.
  - destruct lines; [|simpl in Hlen; lia]. simpl. now rewrite app_nil_r.
  - destruct lines as [|l rest]; cbn [group_loop take_block].
    + now rewrite app_nil_r.
    + destruct (is_import uni_alnum l) eqn:E.
      * pose proof (take_block_spec rest (sep out ++ [l])) as Hs.
        destruct (take_block uni_alnum (sep out ++ [l]) rest) as [o a].
        destruct Hs as (b & -> & -> & _ & _).
        simpl in Hlen. rewrite length_app in Hlen.
        rewrite IH by lia.
        rewrite (nonblank_lines_cons l (b ++ a)).
        destruct a as [|a0 a']; [|destruct (is_blank a0)]; simpl negb; cbv iota;
          nonblank_done.
      * simpl in Hlen. rewrite IH by lia.
        rewrite (nonblank_lines_cons l rest). nonblank_done.
Qed.

(** X2.  The outer loop of group_import_blocks ends within [n] turns, [n]
    being the number of lines still to read: any two amounts of fuel of at
    least [n] give the same output. *)
Lemma group_loop_fuel (fuel1 : nat) :
  forall fuel2 lines out,
    List.length lines <= fuel1 -> List.length lines <= fuel2 ->
    group_loop uni_alnum fuel1 out lines = group_loop uni_alnum fuel2 out lines.
Proof.
  induction fuel1 as [|fuel1 IH]; intros fuel2 lines out H1 H2.
  - destruct lines; [|simpl in H1; lia]. destruct fuel2; reflexivity.
  - destruct lines as [|l rest]; [destruct fuel2; reflexivity|].
    destruct fuel2 as [|fuel2]; [simpl in H2; lia|].
    cbn [group_loop take_block]. simpl in H1, H2.
    destruct (is_import uni_alnum l).
    + pose proof (take_block_spec rest (sep out ++ [l])) as Hs.
      destruct (take_block uni_alnum (sep out ++ [l]) rest) as [o a].
      destruct Hs as (b & _ & -> & _). rewrite length_app in H1, H2.
      apply IH; lia.
    + apply IH; lia.
Qed.

End Preservation.

Lemma inside_loop_nonblank (lines out : list line) (depth : Z) :
  nonblank_lines (inside_loop out depth lines)
  = nonblank_lines out ++ nonblank_lines lines.
Proof.
  revert out depth. induction lines as [|l rest IH]; intros out depth.
  - simpl. now rewrite app_nil_r.
  - rewrite (nonblank_lines_cons l rest). cbn [inside_loop]. rewrite IH.
    repeat match goal with
           | |- context [match ?x with _ => _ end] => destruct x
           end; nonblank_done.
Qed.

Lemma plugin_loop_nonblank (lines out : list line) (prev : str) :
  nonblank_lines (plugin_loop out prev lines)
  = nonblank_lines out ++ nonblank_lines lines.
Proof.
  revert out prev. induction lines as [|l rest IH]; intros out prev.
  - simpl. now rewrite app_nil_r.
  - rewrite (nonblank_lines_cons l rest). cbn [plugin_loop].
    destruct (negb (isempty (strip l))); [destruct (phase_boundary _ _)|];
      rewrite IH; nonblank_done.
Qed.

Lemma cap_loop_nonblank (m : nat) (lines out : list line) (run : nat) :
  nonblank_lines (cap_loop m out run lines)
  = nonblank_lines out ++ nonblank_lines lines.
Proof.
  revert out run. induction lines as [|l rest IH]; intros out run.
  - simpl. now rewrite app_nil_r.
  - rewrite (nonblank_lines_cons l rest). cbn [cap_loop].
    destruct (is_blank l) eqn:E; [destruct (S run <=? m)|];
      rewrite IH; autorewrite with nonblank;
      rewrite ?nonblank_lines_one, ?E; reflexivity.
Qed.

(** Each pass keeps the non-blank lines, in order. *)
Lemma pass_nonblank (tbl : char -> bool) (ls : list line) :
  nonblank_lines (group_import_blocks tbl ls) = nonblank_lines ls
  /\ nonblank_lines (ensure_single_blank_between_items tbl ls)
     = nonblank_lines ls
  /\ nonblank_lines (plugin_chain_spacing ls) = nonblank_lines ls
  /\ nonblank_lines (inside_fn_blank_lines ls) = nonblank_lines ls
  /\ nonblank_lines (cap_consecutive_blank_lines ls 2) = nonblank_lines ls.
Proof.
  repeat split.
  - apply group_loop_nonblank. lia.
  - apply ensure_loop_nonblank.
  - apply plugin_loop_nonblank.
  - apply inside_loop_nonblank.
  - apply cap_loop_nonblank.
Qed.

Lemma pipeline_nonblank (tbl : char -> bool) (ls : list line) :
  nonblank_lines (pipeline tbl ls) = nonblank_lines ls.
Proof.
  unfold pipeline.
  destruct (pass_nonblank tbl (inside_fn_blank_lines (plugin_chain_spacing
    (ensure_single_blank_between_items tbl (group_import_blocks tbl ls)))))
    as (_ & _ & _ & _ & ->).
  destruct (pass_nonblank tbl (plugin_chain_spacing
    (ensure_single_blank_between_items tbl (group_import_blocks tbl ls))))
    as (_ & _ & _ & -> & _).
  destruct (pass_nonblank tbl
    (ensure_single_blank_between_items tbl (group_import_blocks tbl ls)))
    as (_ & _ & -> & _).
  destruct (pass_nonblank tbl (group_import_blocks tbl ls)) as (_ & -> & _).
  now destruct (pass_nonblank tbl ls) as (-> & _).
Qed.

(** C2.  The non-blank lines of the pipeline's output are the non-blank
    lines of its input, with the same content and in the same order; and so
    it is for each of the five passes: they only insert or remove blank
    lines. *)
Theorem pipeline_preserves_nonblank (tbl : char -> bool) (ls : list line) :
  nonblank_lines (pipeline tbl ls) = nonblank_lines ls
  /\ nonblank_lines (group_import_blocks tbl ls) = nonblank_lines ls
  /\ nonblank_lines (ensure_single_blank_between_items tbl ls)
     = nonblank_lines ls
  /\ nonblank_lines (plugin_chain_spacing ls) = nonblank_lines ls
  /\ nonblank_lines (inside_fn_blank_lines ls) = nonblank_lines ls
  /\ nonblank_lines (cap_consecutive_blank_lines ls 2) = nonblank_lines ls.
Proof.
  split; [apply pipeline_nonblank|apply pass_nonblank].
Qed.

(* ================================================================== *)
(** ** cap_consecutive_blank_lines *)

Lemma cap_loop_acc (m : nat) (lines out : list line) (run : nat) :
  cap_loop m out run lines = out ++ cap_loop m [] run lines.
Proof.
  revert out run.
  induction lines as [|l rest IH]; intros out run; cbn [cap_loop].
  - now rewrite app_nil_r.
  - cbn [app]. destruct (is_blank l); [destruct (S run <=? m)|].
    + now rewrite (IH (out ++ [nl])), (IH [nl]), <- app_assoc.
    + apply IH.
    + now rewrite (IH (out ++ [l])), (IH [l]), <- app_assoc.
Qed.

Lemma cap_loop_runs (m : nat) (lines : list line) (run : nat) :
  blank_runs_from (Nat.min run m) (cap_loop m [] run lines)
  = List.map (fun k => Nat.min k m) (blank_runs_from run lines).
Proof.
  revert run.
  induction lines as [|l rest IH]; intros run;
    cbn [cap_loop blank_runs_from List.map app].
  - reflexivity.
  - destruct (is_blank l) eqn:E.
    + destruct (S run <=? m) eqn:L.
      * apply Nat.leb_le in L. rewrite cap_loop_acc.
        cbn [app blank_runs_from]. rewrite is_blank_nl.
        rewrite <- IH. f_equal. lia.
      * apply Nat.leb_gt in L. rewrite <- IH. f_equal. lia.
    + rewrite cap_loop_acc. cbn [app blank_runs_from List.map]. rewrite E.
      f_equal. apply (IH 0).
Qed.

Lemma cap_loop_bare (m : nat) (lines out : list line) (run : nat) :
  blanks_bare out -> blanks_bare (cap_loop m out run lines).
Proof.
  unfold blanks_bare.
  revert out run.
  induction lines as [|l rest IH]; intros out run Hout; cbn [cap_loop].
  - exact Hout.
  - destruct (is_blank l) eqn:E; [destruct (S run <=? m)|]; apply IH; auto;
      apply Forall_app; split; auto; constructor; auto; congruence.
Qed.

Lemma blank_runs_from_head (ls : list line) :
  forall run,
    forallb (fun k => k <=? 2) (blank_runs_from run ls) = true -> run <= 2.
Proof.
  induction ls as [|l rest IH]; intros run; cbn [blank_runs_from].
  - cbn [forallb]. rewrite andb_true_r. apply Nat.leb_le.
  - destruct (is_blank l).
    + intros H. apply IH in H. lia.
    + cbn [forallb]. intros H. apply andb_true_iff in H.
      now apply Nat.leb_le.
Qed.

Lemma cap_loop_id (ls : list line) :
  forall out run,
    blanks_bare ls ->
    forallb (fun k => k <=? 2) (blank_runs_from run ls) = true ->
    cap_loop 2 out run ls = out ++ ls.
Proof.
  unfold blanks_bare.
  induction ls as [|l rest IH]; intros out run Hbare Hruns.
  - simpl. now rewrite app_nil_r.
  - inversion Hbare as [|? ? Hl Hrest]; subst.
    cbn [cap_loop blank_runs_from] in *.
    destruct (is_blank l) eqn:E.
    + pose proof (blank_runs_from_head _ _ Hruns) as Hle.
      destruct (S run <=? 2) eqn:L; [|apply Nat.leb_gt in L; lia].
      rewrite (IH _ _ Hrest Hruns), <- (Hl eq_refl).
      now rewrite <- app_assoc.
    + cbn [forallb] in Hruns. apply andb_true_iff in Hruns.
      rewrite (IH _ _ Hrest (proj2 Hruns)). now rewrite <- app_assoc.
Qed.

(** With no run longer than two, the loop re-emits every line, a blank one
    as the bare line feed. *)
Lemma cap_loop_map_bare (ls : list line) :
  forall run,
    forallb (fun k => k <=? 2) (blank_runs_from run ls) = true ->
    cap_loop 2 [] run ls = List.map bare ls.
Proof.
  induction ls as [|l rest IH]; intros run H; [reflexivity|].
  cbn [cap_loop blank_runs_from List.map app] in *. unfold bare at 1.
  destruct (is_blank l) eqn:E.
  - pose proof (blank_runs_from_head _ _ H) as Hle.
    destruct (S run <=? 2) eqn:L; [|apply Nat.leb_gt in L; lia].
    rewrite cap_loop_acc, (IH _ H). reflexivity.
  - cbn [forallb] in H. apply andb_true_iff in H.
    rewrite cap_loop_acc, (IH _ (proj2 H)). reflexivity.
Qed.

(** C4, as stated, fails: a run of one blank line made of two spaces does
    not pass through unchanged; it keeps its length and becomes a bare line
    feed. *)
Lemma whitespace_run_rewritten :
  blank_runs [ln "a"; ln "  "; ln "b"] = [0; 1; 0]
  /\ cap_consecutive_blank_lines [ln "a"; ln "  "; ln "b"] 2
     = [ln "a"; nl; ln "b"]
  /\ cap_consecutive_blank_lines [ln "a"; ln "  "; ln "b"] 2
     <> [ln "a"; ln "  "; ln "b"].
Proof.
  repeat apply conj; try (vm_compute; reflexivity).
  vm_compute. discriminate.
Qed.

(** C4, amended.  In the output of cap_consecutive_blank_lines every maximal
    run of [k] blank lines of the input has become a run of [min k 2] blank
    lines (so 3 or more give exactly 2, and 0, 1 or 2 stay as many), the
    non-blank lines between the runs are the input's, and hence no run of
    the output is longer than 2.  Every blank line of the output is the
    bare line feed: when no run of the input is longer than 2 the output is
    the input with each blank line replaced by the bare line feed, and the
    input is returned as it is exactly when, moreover, its blank lines are
    bare line feeds already. *)
Theorem cap_collapses_runs (ls : list line) :
  blank_runs (cap_consecutive_blank_lines ls 2)
  = List.map (fun k => Nat.min k 2) (blank_runs ls)
  /\ nonblank_lines (cap_consecutive_blank_lines ls 2) = nonblank_lines ls
  /\ Forall (fun k => k <= 2) (blank_runs (cap_consecutive_blank_lines ls 2))
  /\ blanks_bare (cap_consecutive_blank_lines ls 2)
  /\ (Forall (fun k => k <= 2) (blank_runs ls) ->
      cap_consecutive_blank_lines ls 2 = List.map bare ls)
  /\ (cap_consecutive_blank_lines ls 2 = ls
      <-> blanks_bare ls /\ Forall (fun k => k <= 2) (blank_runs ls)).
Proof.
  assert (H : blank_runs (cap_consecutive_blank_lines ls 2)
              = List.map (fun k => Nat.min k 2) (blank_runs ls))
    by apply (cap_loop_runs 2 ls 0).
  assert (Hle : Forall (fun k => k <= 2)
                  (blank_runs (cap_consecutive_blank_lines ls 2))).
  { rewrite H. apply Forall_forall. intros k Hk.
    apply in_map_iff in Hk. destruct Hk as (k' & <- & _). lia. }
  assert (Hb : blanks_bare (cap_consecutive_blank_lines ls 2))
    by (apply cap_loop_bare; constructor).
  assert (Hf : forall xs, Forall (fun k => k <= 2) xs ->
                          forallb (fun k => k <=? 2) xs = true).
  { intros xs Hxs. apply forallb_forall. rewrite Forall_forall in Hxs.
    intros k Hk. apply Nat.leb_le. now apply Hxs. }
  split; [exact H|]. split; [apply cap_loop_nonblank|].
  split; [exact Hle|]. split; [exact Hb|]. split.
  - intros Hruns. apply cap_loop_map_bare, Hf, Hruns.
  - split.
    + intros E. rewrite E in Hb, Hle. split; assumption.
    + intros [Hbare Hruns]. apply (@cap_loop_id ls [] 0 Hbare).
      apply Hf, Hruns.
Qed.

Lemma cap_collapses_runs_witness :
  cap_consecutive_blank_lines [ln "a"; nl; nl; ln "b"] 2
  = [ln "a"; nl; nl; ln "b"].
Proof.
  apply (proj2 (proj2 (proj2 (proj2 (proj2
    (cap_collapses_runs [ln "a"; nl; nl; ln "b"])))))).
  split.
  - repeat constructor; intros H; try reflexivity; discriminate H.
  - vm_compute. repeat constructor.
Defined.

(* ================================================================== *)
(** ** Facts about the string primitives *)

Lemma str_eqb_eq (a b : str) : str_eqb a b = true <-> a = b.
Proof.
  revert b. induction a as [|x a IH]; intros [|y b]; simpl;
    try (split; [discriminate|discriminate]); try tauto.
  rewrite andb_true_iff, N.eqb_eq, IH. split.
  - intros [-> ->]. reflexivity.
  - intros H. injection H. auto.
Qed.

Lemma lstrip_head (s : str) (c : char) (t : str) :
  lstrip s = c :: t -> isspace c = false.
Proof.
  induction s as [|x s IH]; simpl; [discriminate|].
  destruct (isspace x) eqn:E; [exact IH|].
  intros H. injection H as -> _. exact E.
Qed.

Lemma lstrip_nil (s : str) : lstrip s = [] <-> forallb isspace s = true.
Proof.
  induction s as [|x s IH]; simpl; [tauto|].
  destruct (isspace x); simpl; [exact IH|].
  split; discriminate.
Qed.

Lemma rstrip_nil (s : str) : rstrip s = [] <-> forallb isspace s = true.
Proof.
  induction s as [|x s IH]; simpl; [tauto|].
  destruct (rstrip s) as [|y r].
  - destruct (isspace x); simpl; [tauto|].
    split; discriminate.
  - split; [discriminate|].
    rewrite andb_true_iff. intros [_ H]. apply IH in H. discriminate.
Qed.

(** A line is blank exactly when all its characters are whitespace. *)
Lemma is_blank_spec (l : line) :
  is_blank l = true <-> forallb isspace l = true.
Proof.
  unfold is_blank, strip. split.
  - intros H. destruct (rstrip (lstrip l)) eqn:E; [|discriminate].
    apply rstrip_nil in E. apply lstrip_nil.
    destruct (lstrip l) as [|c t] eqn:El; [reflexivity|].
    apply lstrip_head in El. simpl in E. rewrite El in E. discriminate.
  - intros H. apply lstrip_nil in H. rewrite H. reflexivity.
Qed.

(** Induction for functions that may read two characters at a time. *)
Lemma str_ind2 (P : str -> Prop) :
  P [] ->
  (forall c t, P t -> (forall c' t', t = c' :: t' -> P t') -> P (c :: t)) ->
  forall s, P s.
Proof.
  intros Hnil Hcons s.
  assert (H : P s /\ (forall c' t', s = c' :: t' -> P t')).
  { induction s as [|c t [IH1 IH2]].
    - split; [exact Hnil|discriminate].
    - split; [apply Hcons; assumption|].
      intros c' t' E. injection E as <- <-. exact IH1. }
  apply H.
Qed.

Lemma splitlines_from_join (s cur : str) :
  join (splitlines_from cur s) = cur ++ s.
Proof.
  unfold join. revert cur.
  induction s as [|c t IH IH2] using str_ind2; intros cur.
  - simpl. destruct cur; simpl; now rewrite ?app_nil_r.
  - cbn [splitlines_from].
    destruct (islinebreak c).
    + destruct (N.eqb c 13).
      * destruct t as [|c' t'].
        -- simpl. now rewrite app_nil_r.
        -- destruct (N.eqb c' 10); cbn [List.concat].
           ++ rewrite (IH2 c' t' eq_refl []). now rewrite <- app_assoc.
           ++ rewrite (IH []). now rewrite <- app_assoc.
      * cbn [List.concat]. rewrite (IH []). now rewrite <- app_assoc.
    + rewrite IH. now rewrite <- app_assoc.
Qed.

(** Joining the lines of a text gives the text back. *)
Lemma join_splitlines (txt : str) : join (splitlines txt) = txt.
Proof. apply (splitlines_from_join txt []). Qed.

Lemma In_removelast (c : char) (s : str) : In c (removelast s) -> In c s.
Proof.
  induction s as [|x s IH]; simpl; [tauto|].
  destruct s as [|y s']; [intros []|].
  intros [->|H]; [now left|right; now apply IH].
Qed.

Lemma no_linebreak_shaped (cur : str) (c : char) :
  no_linebreak cur -> line_shaped (cur ++ [c]).
Proof.
  intros H. split.
  - destruct cur; discriminate.
  - rewrite removelast_last. intros Hin.
    unfold no_linebreak in H. rewrite Forall_forall in H.
    apply H in Hin. discriminate.
Qed.

Lemma splitlines_from_shaped (s cur : str) :
  no_linebreak cur -> Forall line_shaped (splitlines_from cur s).
Proof.
  revert cur. induction s as [|c t IH IH2] using str_ind2; intros cur Hcur.
  - simpl. destruct cur as [|x cur']; simpl; constructor; [|constructor].
    split; [discriminate|].
    intros Hin. apply (In_removelast _ (x :: cur')) in Hin.
    unfold no_linebreak in Hcur. rewrite Forall_forall in Hcur.
    apply Hcur in Hin. discriminate.
  - cbn [splitlines_from].
    destruct (islinebreak c) eqn:Ec.
    + destruct (N.eqb c 13) eqn:E13.
      * destruct t as [|c' t'].
        -- constructor; [now apply no_linebreak_shaped|constructor].
        -- destruct (N.eqb c' 10) eqn:E10.
           ++ constructor; [|apply (IH2 c' t' eq_refl); constructor].
              apply N.eqb_eq in E13. subst c.
              change (cur ++ [13%N; c']) with (cur ++ [13%N] ++ [c']).
              rewrite app_assoc. split.
              ** destruct cur; discriminate.
              ** rewrite removelast_last. intros Hin.
                 apply in_app_or in Hin. destruct Hin as [Hin|[Hin|[]]];
                   [|discriminate].
                 unfold no_linebreak in Hcur. rewrite Forall_forall in Hcur.
                 apply Hcur in Hin. discriminate.
           ++ constructor; [now apply no_linebreak_shaped|].
              apply IH. constructor.
      * constructor; [now apply no_linebreak_shaped|].
        apply IH. constructor.
    + apply IH. apply Forall_app. split; [exact Hcur|].
      constructor; [exact Ec|constructor].
Qed.

Lemma splitlines_shaped (txt : str) : Forall line_shaped (splitlines txt).
Proof. apply splitlines_from_shaped. constructor. Qed.

(* ================================================================== *)
(** ** Blank lines of the output are bare line feeds *)

Lemma stray_count_join (ls : list line) :
  stray_count (join ls) = stray_total ls.
Proof.
  unfold stray_count, stray_total, join.
  induction ls as [|l ls IH]; simpl; [reflexivity|].
  now rewrite filter_app, length_app, IH.
Qed.

Lemma stray_total_nonblank_le (ls : list line) :
  stray_total (nonblank_lines ls) <= stray_total ls.
Proof.
  unfold stray_total.
  induction ls as [|l ls IH]; simpl; [lia|].
  destruct (is_blank l); simpl; lia.
Qed.

Lemma stray_total_nonblank_lt (ls : list line) (l : line) :
  In l ls -> is_blank l = true -> 0 < stray_count l ->
  stray_total (nonblank_lines ls) < stray_total ls.
Proof.
  intros Hin Hb Hs. induction ls as [|x ls IH]; [destruct Hin|].
  pose proof (stray_total_nonblank_le ls) as Hle.
  unfold stray_total in *. simpl.
  destruct Hin as [->|Hin].
  - rewrite Hb. simpl. lia.
  - specialize (IH Hin). destruct (is_blank x); simpl; lia.
Qed.

Lemma stray_total_bare (ls : list line) :
  blanks_bare ls -> stray_total (nonblank_lines ls) = stray_total ls.
Proof.
  unfold blanks_bare, stray_total.
  induction 1 as [|l ls Hl _ IH]; simpl; [reflexivity|].
  destruct (is_blank l); simpl; [|now rewrite IH].
  rewrite (Hl eq_refl). simpl. exact IH.
Qed.

Lemma blank_line_stray (l : line) :
  is_blank l = true -> line_shaped l -> l <> nl -> 0 < stray_count l.
Proof.
  intros Hb [Hne Hlf] Hnl. apply is_blank_spec in Hb.
  destruct l as [|c t]; [contradiction|].
  simpl in Hb. apply andb_true_iff in Hb. destruct Hb as [Hc _].
  assert (Hc10 : N.eqb c 10 = false).
  { apply N.eqb_neq. intros ->. destruct t as [|c' t'].
    - now apply Hnl.
    - apply Hlf. now left. }
  unfold stray_count, stray. simpl. rewrite Hc, Hc10. simpl. lia.
Qed.

Lemma pipeline_bare (tbl : char -> bool) (ls : list line) :
  blanks_bare (pipeline tbl ls).
Proof. unfold pipeline. apply cap_loop_bare. constructor. Qed.

(** A text with a blank line that is not the bare line feed is changed. *)
Lemma process_text_rewrites (tbl : char -> bool) (txt : str) (l : line) :
  In l (splitlines txt) -> is_blank l = true -> l <> nl ->
  process_text tbl txt <> txt.
Proof.
  intros Hin Hb Hnl Heq.
  assert (Hs : 0 < stray_count l).
  { apply blank_line_stray; auto.
    pose proof (splitlines_shaped txt) as H.
    rewrite Forall_forall in H. now apply H. }
  pose proof (stray_total_nonblank_lt _ _ Hin Hb Hs) as Hlt.
  apply (f_equal stray_count) in Heq. unfold process_text in Heq.
  rewrite stray_count_join in Heq.
  rewrite <- (stray_total_bare (pipeline_bare tbl _)) in Heq.
  rewrite pipeline_nonblank in Heq.
  rewrite <- (join_splitlines txt) in Heq at 2.
  rewrite stray_count_join in Heq. lia.
Qed.

(** *** Substrings *)

Lemma startswith_app (p s : str) : startswith (p ++ s) p = true.
Proof.
  induction p as [|x p IH]; [destruct s; reflexivity|].
  cbn [app startswith]. now rewrite N.eqb_refl, IH.
Qed.

Lemma contains_app (a sub b : str) : contains sub (a ++ sub ++ b) = true.
Proof.
  induction a as [|x a IH]; cbn [app].
  - destruct (sub ++ b) as [|y t] eqn:E; cbn [contains]; rewrite <- E,
      startswith_app; reflexivity.
  - cbn [contains]. rewrite IH. apply orb_true_r.
Qed.

(* ================================================================== *)
(** ** process_file and main: what a run does *)

Section Run.

Variables path FS exn : Type.
Variable path_str : path -> str.
Variable exn_str : exn -> str.
Variable read_text : path -> FS -> exn + str.
Variable write_text : path -> str -> FS -> FS * option exn.
Variable tbl : char -> bool.

Abbreviation world := (IO.world path FS).
Abbreviation process_file := (IO.process_file read_text write_text tbl).
Abbreviation outcomes := (IO.outcomes read_text write_text tbl).
Abbreviation warnings := (IO.warnings path_str exn_str).
Abbreviation main_loop :=
  (IO.main_loop path_str exn_str read_text write_text tbl).
Abbreviation main := (IO.main path_str exn_str read_text write_text tbl).

(** What process_file does, case by case: a failed read raises and leaves
    the world as it was; an unchanged text gives [False] and no write; a
    changed text is written, and the call gives [True] unless the write
    raises. *)
Lemma process_file_cases (p : path) (w : world) :
  match read_text p (fs w) with
  | inl e => process_file p w = (Raise e, w)
  | inr txt =>
      if str_eqb (process_text tbl txt) txt
      then process_file p w = (Ok false, w)
      else
        let '(fs', r) := write_text p (process_text tbl txt) (fs w) in
        process_file p w
        = (match r with Some e => Raise e | None => Ok true end,
           World fs' (written w ++ [(p, process_text tbl txt)])
                 (stdout w) (stderr w))
  end.
Proof.
  unfold IO.process_file, bind, py_read, py_write, ret.
  destruct (read_text p (fs w)) as [e|txt]; [reflexivity|].
  destruct (str_eqb (process_text tbl txt) txt); cbn [negb]; [reflexivity|].
  destruct (write_text p (process_text tbl txt) (fs w)) as [fs' [e|]];
    reflexivity.
Qed.

(** process_file reads nothing but the file system and leaves the two
    streams alone. *)
Lemma process_file_frame (p : path) (w1 w2 : world) :
  fs w1 = fs w2 ->
  fst (process_file p w1) = fst (process_file p w2)
  /\ fs (snd (process_file p w1)) = fs (snd (process_file p w2))
  /\ stdout (snd (process_file p w1)) = stdout w1
  /\ stderr (snd (process_file p w1)) = stderr w1.
Proof.
  intros E.
  pose proof (process_file_cases p w1) as H1.
  pose proof (process_file_cases p w2) as H2.
  rewrite <- E in H2.
  destruct (read_text p (fs w1)) as [e|txt].
  - rewrite H1, H2. auto.
  - destruct (str_eqb (process_text tbl txt) txt).
    + rewrite H1, H2. auto.
    + destruct (write_text p (process_text tbl txt) (fs w1)) as [fs' r].
      rewrite H1, H2. auto.
Qed.

Lemma outcomes_frame (paths : list path) :
  forall w1 w2 : world, fs w1 = fs w2 -> outcomes paths w1 = outcomes paths w2.
Proof.
  induction paths as [|p rest IH]; intros w1 w2 E; simpl; [reflexivity|].
  destruct (process_file_frame p w1 w2 E) as (Hr & Hfs & _).
  destruct (process_file p w1) as [r1 w1'], (process_file p w2) as [r2 w2'].
  simpl in Hr, Hfs. subst r2. f_equal. now apply IH.
Qed.

Lemma main_loop_spec (paths : list path) :
  forall (changed : nat) (w : world),
  exists w',
    main_loop changed paths w
    = (Ok (changed + changed_count (outcomes paths w)), w')
    /\ stderr w' = stderr w ++ warnings (outcomes paths w)
    /\ stdout w' = stdout w.
Proof.
  induction paths as [|p rest IH]; intros changed w.
  - exists w. simpl. unfold ret, changed_count. simpl.
    now rewrite Nat.add_0_r, app_nil_r.
  - cbn [IO.main_loop IO.outcomes].
    unfold bind at 1. unfold try_except. unfold bind at 1.
    destruct (process_file_frame p w w eq_refl) as (_ & _ & Hout & Herr).
    destruct (process_file p w) as [[b|e] w1] eqn:Ep; simpl in Hout, Herr.
    + unfold ret at 1.
      destruct (IH (if b then S changed else changed) w1) as (w' & -> & He & Ho).
      exists w'. split; [|split].
      * f_equal. f_equal. unfold changed_count. cbn [filter snd].
        destruct b; simpl; lia.
      * rewrite He, Herr. reflexivity.
      * rewrite Ho, Hout. reflexivity.
    + unfold bind, print_err, ret.
      set (w2 := World (fs w1) (written w1) (stdout w1)
                       (stderr w1 ++ [warning path_str exn_str p e])).
      destruct (IH changed w2) as (w' & -> & He & Ho).
      rewrite (outcomes_frame rest w1 w2 eq_refl).
      exists w'. split; [|split].
      * reflexivity.
      * rewrite He. subst w2. cbn [stderr]. rewrite Herr.
        unfold IO.warnings. cbn [flat_map snd fst].
        now rewrite <- app_assoc.
      * rewrite Ho. subst w2. cbn [stdout]. exact Hout.
Qed.

Lemma outcomes_paths (paths : list path) :
  forall w : world, List.map fst (outcomes paths w) = paths.
Proof.
  induction paths as [|p rest IH]; intros w; simpl; [reflexivity|].
  destruct (process_file p w) as [r w']. simpl. now rewrite IH.
Qed.

Lemma warnings_length (os : list (path * result exn bool)) :
  List.length (warnings os)
  = List.length
      (filter (fun o => match snd o with Raise _ => true | _ => false end)
              os).
Proof.
  unfold IO.warnings. induction os as [|[p [b|e]] os IH]; cbn; auto.
Qed.

(** The warning of a failed file holds its path and the message of its
    exception. *)
Lemma warning_contains (p : path) (e : exn) :
  contains (path_str p) (IO.warning path_str exn_str p e) = true
  /\ contains (exn_str e) (IO.warning path_str exn_str p e) = true.
Proof.
  unfold IO.warning. split; [apply contains_app|].
  rewrite <- (app_nil_r (exn_str e)) at 2. rewrite !app_assoc.
  rewrite <- app_assoc. apply contains_app.
Qed.

(** C9.  Whatever the files do, main ends without raising.  Every path of
    the batch is processed, in order, each in the file system its
    predecessors left, whether or not they failed; the error stream receives
    one line per failed file, in order, which reads
    [Warning: failed to process], the path, a colon and the message of the
    exception, and so holds both the path and the message; and the count
    printed at the end is the number of files whose processing succeeded
    with a change. *)
Theorem main_isolates_failures (paths : list path) (w : world) :
  exists w',
    main paths w = (Ok tt, w')
    /\ List.map fst (outcomes paths w) = paths
    /\ stderr w' = stderr w ++ warnings (outcomes paths w)
    /\ stdout w'
       = stdout w
         ++ [lit "Files changed: "
             ++ decimal (changed_count (outcomes paths w))]
    /\ warnings (outcomes paths w)
       = flat_map
           (fun o =>
              match snd o with
              | Raise e =>
                  [lit "Warning: failed to process " ++ path_str (fst o)
                   ++ lit ": " ++ exn_str e]
              | Ok _ => []
              end)
           (outcomes paths w)
    /\ List.length (warnings (outcomes paths w))
       = List.length
           (filter
              (fun o => match snd o with Raise _ => true | Ok _ => false end)
              (outcomes paths w))
    /\ (forall p e,
          In (p, Raise e) (outcomes paths w) ->
          exists l,
            In l (warnings (outcomes paths w))
            /\ contains (path_str p) l = true
            /\ contains (exn_str e) l = true).
Proof.
  destruct (main_loop_spec paths 0 w) as (w1 & Hm & He & Ho).
  unfold IO.main, bind. rewrite Hm. unfold print_out.
  eexists. split; [reflexivity|]. cbn [stderr stdout].
  rewrite He, Ho. split; [apply outcomes_paths|].
  split; [reflexivity|]. split; [reflexivity|].
  split; [reflexivity|]. split; [apply warnings_length|].
  intros p e Hin. exists (IO.warning path_str exn_str p e).
  split; [|apply warning_contains].
  unfold IO.warnings. apply in_flat_map. exists (p, Raise e).
  split; [exact Hin|]. now left.
Qed.

(** C10.  Every blank line of the pipeline's output is the bare line feed.
    So a text with a whitespace-only line that is anything else (one that
    holds a space or a tab, or a last line without its line feed) is never
    left as it is, and process_file writes it back, wherever its blank
    lines stand. *)
Theorem blank_lines_become_bare :
  (forall ls, blanks_bare (pipeline tbl ls))
  /\ (forall l : line,
        In 32%N l \/ In 9%N l \/ last l 0%N <> 10%N -> l <> nl)
  /\ (forall txt l,
        In l (splitlines txt) -> is_blank l = true -> l <> nl ->
        process_text tbl txt <> txt)
  /\ (forall p (w : world) txt l,
        read_text p (fs w) = inr txt ->
        In l (splitlines txt) -> is_blank l = true -> l <> nl ->
        written (snd (process_file p w))
        = written w ++ [(p, process_text tbl txt)]).
Proof.
  split; [apply pipeline_bare|]. split; [|split].
  - intros l H ->. simpl in H.
    destruct H as [[H|[]]|[[H|[]]|H]]; try discriminate. now apply H.
  - apply process_text_rewrites.
  - intros p w txt l Hr Hin Hb Hnl.
    pose proof (@process_text_rewrites tbl txt l Hin Hb Hnl) as Hne.
    pose proof (process_file_cases p w) as Hc. rewrite Hr in Hc.
    destruct (str_eqb (process_text tbl txt) txt) eqn:E.
    + apply str_eqb_eq in E. contradiction.
    + destruct (write_text p (process_text tbl txt) (fs w)) as [fs' r].
      rewrite Hc. reflexivity.
Qed.

End Run.

(* ================================================================== *)
(** ** The pipeline on particular inputs *)

Lemma blank_lines_become_bare_witness :
  process_text no_alnum trailing_spaces <> trailing_spaces.
Proof.
  refine (proj1 (proj2 (proj2
    (blank_lines_become_bare read_one write_one no_alnum)))
    trailing_spaces (ln "  ") _ _ _).
  - vm_compute. tauto.
  - reflexivity.
  - discriminate.
Defined.

(** *** A batch with an unreadable file *)

(** On [three_files] the first file is rewritten, the second gives the one
    warning, the third is read and left alone, and the count is 1. *)
Example main_on_three_files :
  IO.main decimal (fun e : str => e) disk_read disk_write no_alnum [0; 1; 2]
    (World (path := nat) three_files [] [] [])
  = (Ok tt,
     World [Some (join nested_if_once); None; Some spaced_main]
           [(0, join nested_if_once)]
           [lit "Files changed: 1"]
           [lit "Warning: failed to process 1: cannot read"]).
Proof. vm_compute. reflexivity. Qed.

(** *** Phase spacing and the turbofish *)

(** C5.  The line [app.init_resource::<Foo>();] is not taken for a resource
    registration (the text [.init_resource(] does not occur in it), so the
    pipeline leaves it and the following [configure_sets] line adjacent;
    after an [insert_resource(...)] line the blank line is inserted, and a
    blank line already there is left alone. *)
Theorem init_resource_turbofish_unspaced (tbl : char -> bool) :
  is_resource_line (strip init_line) = false
  /\ pipeline tbl [init_line; sets_line] = [init_line; sets_line]
  /\ pipeline tbl [init_line; nl; sets_line] = [init_line; nl; sets_line]
  /\ pipeline tbl [insert_line; sets_line] = [insert_line; nl; sets_line]
  /\ pipeline tbl [insert_line; nl; sets_line]
     = [insert_line; nl; sets_line].
Proof. repeat apply conj; vm_compute; reflexivity. Qed.

(** *** Identifiers that begin with [loop] *)

(** C7.  The line [loop_count = 0;] starts with the entry [loop] of the
    control-flow prefixes, the only one without a following space or
    parenthesis, and gets a blank line before it inside a block. *)
Theorem loop_prefix_is_control_start (tbl : char -> bool) :
  startswith_any (strip (ln "    loop_count = 0;")) control_starts = true
  /\ inside_fn_blank_lines loop_count_fn
     = [ln "fn f() {"; ln "    let a = 1;"; nl; ln "    loop_count = 0;";
        ln "}"]
  /\ pipeline tbl loop_count_fn
     = [ln "fn f() {"; ln "    let a = 1;"; nl; ln "    loop_count = 0;";
        ln "}"]
  /\ existsb (fun s => startswith_any s control_starts)
       [lit "if_ready = 1;"; lit "matches = 1;"; lit "format = 1;";
        lit "while_ok = 1;"; lit "returned = 1;"] = false.
Proof. repeat apply conj; vm_compute; reflexivity. Qed.

(** *** An attribute before a module declaration *)

(** C6.  [#[cfg(test)]] is an attribute line and [mod tests;] an
    import-or-module line; group_import_blocks, which runs first, puts a
    blank line between them, and the pipeline's output keeps it. *)
Theorem attribute_split_from_mod (tbl : char -> bool) :
  attr_or_doc (ln "#[cfg(test)]") = true
  /\ starts_item tbl (ln "mod tests;") = true
  /\ group_import_blocks tbl [ln "#[cfg(test)]"; ln "mod tests;"]
     = [ln "#[cfg(test)]"; nl; ln "mod tests;"]
  /\ pipeline tbl [ln "#[cfg(test)]"; ln "mod tests;"]
     = [ln "#[cfg(test)]"; nl; ln "mod tests;"].
Proof. repeat apply conj; vm_compute; reflexivity. Qed.

(** *** Running the pipeline twice *)

(** C1.  On the text of [nested_if] the first run puts one blank line after
    the inner closing brace; run on its own output, the pipeline puts a
    second one there: the two outputs differ. *)
Theorem second_run_adds_blank (tbl : char -> bool) :
  process_text tbl (join nested_if) = join nested_if_once
  /\ process_text tbl (join nested_if_once) = join nested_if_twice
  /\ process_text tbl (process_text tbl (join nested_if))
     <> process_text tbl (join nested_if)
  /\ inside_fn_blank_lines nested_if_once = nested_if_twice.
Proof.
  assert (H1 : process_text tbl (join nested_if) = join nested_if_once)
    by (vm_compute; reflexivity).
  assert (H2 : process_text tbl (join nested_if_once) = join nested_if_twice)
    by (vm_compute; reflexivity).
  split; [exact H1|]. split; [exact H2|]. split.
  - rewrite H1, H2. vm_compute. discriminate.
  - vm_compute. reflexivity.
Qed.

(* ================================================================== *)
(** ** Classification reads the line as it is *)

(** C8, as stated, fails: the two lines have the same trimmed text, yet
    only the unindented one is an import for group_import_blocks and an
    item start for ensure_single_blank_between_items, and only it is
    separated from the line before. *)
Lemma indented_use_not_classified :
  strip indented_use = strip plain_use
  /\ (forall tbl, is_import tbl indented_use = false)
  /\ (forall tbl, is_import tbl plain_use = true)
  /\ (forall tbl, starts_item tbl indented_use = false)
  /\ (forall tbl, starts_item tbl plain_use = true)
  /\ (forall tbl, pipeline tbl [ln "x"; indented_use]
                  = [ln "x"; indented_use])
  /\ (forall tbl, pipeline tbl [ln "x"; plain_use]
                  = [ln "x"; nl; plain_use]).
Proof. repeat apply conj; try intros tbl; vm_compute; reflexivity. Qed.

(** No word a pattern begins with starts with a whitespace character. *)
Lemma startswith_space (c : char) (rest : str) (x : char) (p : str) :
  isspace c = true -> isspace x = false ->
  startswith (c :: rest) (x :: p) = false.
Proof.
  intros Hc Hx. simpl. destruct (N.eqb_spec x c) as [->|_]; [|reflexivity].
  congruence.
Qed.

(* ================================================================== *)
(** ** ensure_single_blank_between_items keeps attributes attached *)

Lemma ensure_loop_acc (tbl : char -> bool) (ls out : list line) :
  ensure_loop tbl out ls = out ++ ensure_loop tbl [] ls.
Proof.
  revert out. induction ls as [|l rest IH]; intros out; cbn [ensure_loop].
  - now rewrite app_nil_r.
  - cbn [app].
    assert (H1 : ensure_loop tbl (out ++ [l]) rest
                 = out ++ ensure_loop tbl [l] rest)
      by (now rewrite (IH (out ++ [l])), (IH [l]), <- app_assoc).
    assert (H2 : ensure_loop tbl ((out ++ [l]) ++ [nl]) rest
                 = out ++ ensure_loop tbl [l; nl] rest)
      by (now rewrite (IH ((out ++ [l]) ++ [nl])), (IH [l; nl]),
            <- !app_assoc).
    destruct rest as [|nx rest']; [exact H1|].
    destruct (starts_item tbl nx); [|exact H1].
    destruct (is_blank l); [exact H1|].
    destruct (attr_or_doc l); [exact H1|exact H2].
Qed.

Lemma ensure_cons (tbl : char -> bool) (l : line) (rest : list line) :
  ensure_loop tbl [] (l :: rest)
  = l :: (if needs_sep tbl l rest then [nl] else [])
      ++ ensure_loop tbl [] rest.
Proof.
  cbn [ensure_loop app]. unfold needs_sep.
  destruct rest as [|nx rest'].
  - now rewrite ensure_loop_acc.
  - destruct (starts_item tbl nx); [destruct (is_blank l);
                                    [|destruct (attr_or_doc l)]|];
      cbn [andb negb]; now rewrite ensure_loop_acc.
Qed.

Lemma needs_sep_head (tbl : char -> bool) (x : line) (xs : list line)
    (L : line) (zs : list line) :
  needs_sep tbl x (xs ++ L :: zs) = needs_sep tbl x (xs ++ [L]).
Proof. destruct xs; reflexivity. Qed.

(** X1.  ensure_single_blank_between_items never puts a line between an
    attribute-or-doc line and the line after it: the output for the whole
    list is the output for the lines up to the attribute, which ends with
    it, followed by the output for the lines from the next one on, which
    starts with it. *)
Theorem ensure_keeps_attribute_attached (tbl : char -> bool)
    (xs : list line) (L N : line) (ys : list line) :
  attr_or_doc L = true ->
  ensure_single_blank_between_items tbl (xs ++ L :: N :: ys)
  = ensure_single_blank_between_items tbl (xs ++ [L])
    ++ ensure_single_blank_between_items tbl (N :: ys)
  /\ last (ensure_single_blank_between_items tbl (xs ++ [L])) [] = L
  /\ hd [] (ensure_single_blank_between_items tbl (N :: ys)) = N.
Proof.
  unfold ensure_single_blank_between_items. intros HL. split; [|split].
  - induction xs as [|x xs IH].
    + cbn [app]. rewrite (ensure_cons tbl L (N :: ys)), (ensure_cons tbl L []).
      unfold needs_sep. rewrite HL.
      destruct (starts_item tbl N); now rewrite ?andb_false_r.
    + cbn [app]. rewrite (ensure_cons tbl x (xs ++ L :: N :: ys)),
        (ensure_cons tbl x (xs ++ [L])), needs_sep_head, IH.
      cbn [app]. now rewrite <- app_assoc.
  - induction xs as [|x xs IH].
    + reflexivity.
    + cbn [app]. rewrite (ensure_cons tbl x (xs ++ [L])).
      destruct (ensure_loop tbl [] (xs ++ [L])) as [|y t] eqn:E.
      * destruct xs; cbn [app] in E; rewrite ensure_cons in E; discriminate.
      * destruct (needs_sep tbl x (xs ++ [L])); cbn [app]; exact IH.
  - now rewrite ensure_cons.
Qed.

Lemma group_loop_fuel_witness :
  group_loop no_alnum 7 [] [ln "use a;"; ln "x"]
  = group_import_blocks no_alnum [ln "use a;"; ln "x"].
Proof.
  apply (@group_loop_fuel no_alnum 7 2 [ln "use a;"; ln "x"] []);
    simpl; lia.
Defined.

Lemma ensure_keeps_attribute_attached_witness :
  ensure_single_blank_between_items no_alnum
    [ln "fn a() {}"; ln "#[test]"; ln "fn b() {}"]
  = [ln "fn a() {}"; ln "#[test]"; ln "fn b() {}"].
Proof.
  refine (eq_trans (proj1 (@ensure_keeps_attribute_attached no_alnum
    [ln "fn a() {}"] (ln "#[test]") (ln "fn b() {}") [] _)) _).
  - reflexivity.
  - vm_compute. reflexivity.
Defined.

(* ================================================================== *)
(** ** Texts with their blank lines that the pipeline rewrites *)


(* ================================================================== *)
(** ** A text that has its blank lines is left as it is *)

Lemma last_nonblank_snoc (out : list line) (l : line) :
  last_nonblank (out ++ [l]) = negb (is_blank l).
Proof.
  unfold last_nonblank. rewrite last_last.
  destruct out; reflexivity.
Qed.

Lemma sep_id (out : list line) : last_nonblank out = false -> sep out = out.
Proof. unfold sep. now intros ->. Qed.

Lemma adjacent_all_app_r (P : line -> line -> bool) (xs ys : list line) :
  adjacent_all P (xs ++ ys) = true -> adjacent_all P ys = true.
Proof.
  induction xs as [|x xs IH]; [auto|].
  cbn [app adjacent_all]. destruct (xs ++ ys) eqn:E.
  - destruct xs; [|discriminate]. simpl in E. now subst.
  - intros H. apply andb_true_iff in H. now apply IH.
Qed.

Lemma adjacent_all_last (P : line -> line -> bool) (xs : list line)
    (x a : line) (t : list line) :
  adjacent_all P ((xs ++ [x]) ++ a :: t) = true -> P x a = true.
Proof.
  rewrite <- app_assoc. intros H. apply adjacent_all_app_r in H.
  cbn [app adjacent_all] in H. now apply andb_true_iff in H.
Qed.

Section Fixpoints.

Variable tbl : char -> bool.

Lemma ensure_loop_id (ls : list line) :
  forall out, rule_items tbl ls = true ->
  ensure_loop tbl out ls = out ++ ls.
Proof.
  unfold rule_items.
  induction ls as [|l rest IH]; intros out H.
  - simpl. now rewrite app_nil_r.
  - cbn [ensure_loop]. destruct rest as [|nx rest'].
    + rewrite IH by reflexivity. now rewrite <- app_assoc.
    + cbn [adjacent_all] in H. apply andb_true_iff in H.
      destruct H as [Hp Hr].
      destruct (starts_item tbl nx); [|rewrite IH by exact Hr;
                                        now rewrite <- app_assoc].
      destruct (is_blank l); [rewrite IH by exact Hr;
                              now rewrite <- app_assoc|].
      destruct (attr_or_doc l); [|discriminate].
      rewrite IH by exact Hr. now rewrite <- app_assoc.
Qed.

Lemma group_loop_id (fuel : nat) :
  forall ls out,
    List.length ls <= fuel ->
    rule_import_blocks tbl ls = true ->
    match ls with
    | [] => True
    | l :: _ => is_import tbl l = true -> last_nonblank out = false
    end ->
    group_loop tbl fuel out ls = out ++ ls.
Proof.
  unfold rule_import_blocks.
  induction fuel as [|fuel IH]; intros ls out Hlen Hrule Hout.
  - destruct ls; [|simpl in Hlen; lia]. simpl. now rewrite app_nil_r.
  - destruct ls as [|l rest]; cbn [group_loop take_block].
    + now rewrite app_nil_r.
    + destruct (is_import tbl l) eqn:E.
      * rewrite (sep_id _ (Hout eq_refl)).
        pose proof (take_block_spec tbl rest (out ++ [l])) as Hs.
        destruct (take_block tbl (out ++ [l]) rest) as [o after].
        destruct Hs as (b & -> & -> & Hb & Ha).
        simpl in Hlen. rewrite length_app in Hlen.
        assert (Hafter : match after with
                         | [] => True
                         | a :: _ => is_blank a = true
                         end).
        { destruct after as [|a t]; [exact I|].
          assert (Hx : exists xs x, l :: b = xs ++ [x]
                                    /\ is_import tbl x = true).
          { destruct (exists_last (l := l :: b)) as (xs & x & Hx);
              [discriminate|].
            exists xs, x. split; [exact Hx|].
            assert (Hall : forallb (is_import tbl) (l :: b) = true)
              by (simpl; now rewrite E, Hb).
            rewrite forallb_forall in Hall. apply Hall.
            rewrite Hx. apply in_or_app. right. now left. }
          destruct Hx as (xs & x & Hx & Hix).
          change (l :: b ++ a :: t) with ((l :: b) ++ a :: t) in Hrule.
          rewrite Hx in Hrule. apply adjacent_all_last in Hrule.
          rewrite Hix, Ha in Hrule. simpl in Hrule.
          destruct (is_blank a); [reflexivity|discriminate]. }
        rewrite IH.
        -- destruct after as [|a t].
           ++ now rewrite <- !app_assoc.
           ++ rewrite Hafter. cbn [negb]. now rewrite <- !app_assoc.
        -- lia.
        -- change (l :: b ++ after) with ((l :: b) ++ after) in Hrule.
           now apply adjacent_all_app_r in Hrule.
        -- destruct after as [|a t]; [exact I|]. rewrite Ha. discriminate.
      * simpl in Hlen. rewrite IH.
        -- now rewrite <- app_assoc.
        -- lia.
        -- now apply (adjacent_all_app_r _ [l] rest).
        -- destruct rest as [|b t]; [exact I|]. intros Hb.
           cbn [adjacent_all] in Hrule. rewrite E, Hb in Hrule.
           simpl in Hrule. rewrite last_nonblank_snoc.
           destruct (is_blank l); [reflexivity|discriminate].
Qed.

End Fixpoints.

Lemma plugin_loop_id (ls : list line) :
  forall out prev before_blank,
    rule_phases_from prev before_blank ls = true ->
    (before_blank = true -> last_nonblank out = false) ->
    plugin_loop out prev ls = out ++ ls.
Proof.
  induction ls as [|l rest IH]; intros out prev bb H Hout.
  - simpl. now rewrite app_nil_r.
  - cbn [plugin_loop rule_phases_from] in *.
    unfold is_blank in H at 1.
    destruct (isempty (strip l)) eqn:E; cbn [negb].
    + rewrite (IH _ _ _ H).
      * now rewrite <- app_assoc.
      * intros _. rewrite last_nonblank_snoc. unfold is_blank.
        now rewrite E.
    + apply andb_true_iff in H. destruct H as [Hb Hr].
      assert (Hs : (if phase_boundary prev (strip l) then sep out else out)
                   = out).
      { destruct (phase_boundary prev (strip l)); [|reflexivity].
        apply sep_id, Hout. destruct bb; [reflexivity|discriminate]. }
      rewrite Hs, (IH _ _ _ Hr).
      * now rewrite <- app_assoc.
      * discriminate.
Qed.

Lemma inside_loop_id (ls : list line) :
  forall out depth,
    in_blocks_all (fun d l rest => negb (control_unspaced d l rest))
                  depth ls = true ->
    in_blocks_all (fun d l rest => negb (brace_then_statement d l rest))
                  depth ls = true ->
    inside_loop out depth ls = out ++ ls.
Proof.
  induction ls as [|l rest IH]; intros out depth Hc Hb.
  - simpl. now rewrite app_nil_r.
  - cbn [inside_loop in_blocks_all] in *.
    apply andb_true_iff in Hc. destruct Hc as [Hc Hc'].
    apply andb_true_iff in Hb. destruct Hb as [Hb Hb'].
    apply negb_true_iff in Hc, Hb.
    assert (H1 : match rest with
                 | [] => out ++ [l]
                 | nxt :: _ =>
                     if (0 <? depth)%Z
                     then
                       if startswith_any (strip nxt) control_starts
                          && negb (isempty (strip l))
                          && negb (startswith (strip l) (lit "//"))
                       then sep (out ++ [l]) else out ++ [l]
                     else out ++ [l]
                 end = out ++ [l]).
    { unfold control_unspaced, is_blank in Hc.
      destruct rest as [|nxt rest']; [reflexivity|].
      destruct (0 <? depth)%Z; [|reflexivity].
      destruct (startswith_any (strip nxt) control_starts);
        [|reflexivity].
      destruct (isempty (strip l)); [reflexivity|].
      destruct (startswith (strip l) (lit "//")); [reflexivity|].
      discriminate. }
    rewrite H1.
    assert (H2 : (if endswith (strip l) (lit "}") && (0 <? depth)%Z
                  then
                    match dropwhile_blank rest with
                    | [] => out ++ [l]
                    | lj :: _ =>
                        if negb (isempty (strip lj))
                           && negb (startswith_any (strip lj) closers)
                        then sep (out ++ [l]) else out ++ [l]
                    end
                  else out ++ [l]) = out ++ [l]).
    { unfold brace_then_statement in Hb.
      destruct (endswith (strip l) (lit "}") && (0 <? depth)%Z);
        [|reflexivity].
      destruct (dropwhile_blank rest) as [|lj t]; [reflexivity|].
      cbn [andb] in Hb. rewrite Hb. reflexivity. }
    rewrite H2, (IH _ _ Hc' Hb'). now rewrite <- app_assoc.
Qed.

Lemma blanks_bareb_spec (ls : list line) :
  blanks_bareb ls = true <-> blanks_bare ls.
Proof.
  unfold blanks_bareb, blanks_bare. rewrite forallb_forall, Forall_forall.
  split; intros H l Hin.
  - intros Hb. specialize (H l Hin). rewrite Hb in H. simpl in H.
    now apply str_eqb_eq.
  - specialize (H l Hin). destruct (is_blank l); [|reflexivity].
    simpl. now apply str_eqb_eq, H.
Qed.

(** The pipeline leaves alone a list of lines that has the blank lines the
    rules ask for, whose blank lines are bare line feeds, and where no
    closing brace inside a block is followed by a statement. *)
Lemma pipeline_id (tbl : char -> bool) (ls : list line) :
  satisfies_spacing_rules tbl ls = true ->
  blanks_bareb ls = true ->
  no_brace_then_statement ls = true ->
  pipeline tbl ls = ls.
Proof.
  unfold satisfies_spacing_rules. intros H Hbare Hbrace.
  repeat (apply andb_true_iff in H; destruct H as [H ?]).
  unfold pipeline, group_import_blocks, ensure_single_blank_between_items,
    plugin_chain_spacing, inside_fn_blank_lines, cap_consecutive_blank_lines.
  assert (Hg : group_loop tbl (List.length ls) [] ls = ls).
  { apply (@group_loop_id tbl (List.length ls) ls []); auto.
    destruct ls; auto. }
  assert (He : ensure_loop tbl [] ls = ls)
    by (now apply (@ensure_loop_id tbl ls [])).
  assert (Hp : plugin_loop [] [] ls = ls).
  { apply (@plugin_loop_id ls [] [] false); [assumption|discriminate]. }
  assert (Hi : inside_loop [] 0 ls = ls)
    by (now apply (@inside_loop_id ls [] 0%Z)).
  assert (Hc : cap_loop 2 [] 0 ls = ls).
  { apply (@cap_loop_id ls [] 0); [now apply blanks_bareb_spec|assumption]. }
  now rewrite Hg, He, Hp, Hi, Hc.
Qed.

(* ================================================================== *)
(** ** The loops in one pass *)

Lemma sep_app (xs ys : list line) :
  ys <> [] -> sep (xs ++ ys) = xs ++ sep ys.
Proof.
  intros Hne. destruct (exists_last Hne) as (ys' & y & E). subst ys.
  unfold sep.
  replace (last_nonblank (xs ++ ys' ++ [y])) with (negb (is_blank y))
    by (now rewrite app_assoc, last_nonblank_snoc).
  rewrite last_nonblank_snoc.
  destruct (negb (is_blank y)); [|reflexivity].
  now rewrite <- !app_assoc.
Qed.

Lemma sep_one (l : line) :
  sep [l] = if is_blank l then [l] else [l; nl].
Proof. unfold sep, last_nonblank. simpl. now destruct (is_blank l). Qed.

Lemma sep_after_nl (xs : list line) : sep (xs ++ [nl]) = xs ++ [nl].
Proof. unfold sep. now rewrite last_nonblank_snoc. Qed.

(** A line whose trimmed text ends with a closing brace is not blank. *)
Lemma endswith_nonblank (l : line) (p : str) :
  p <> [] -> endswith (strip l) p = true -> is_blank l = false.
Proof.
  intros Hp H. unfold is_blank. destruct (strip l); [|reflexivity].
  unfold endswith in H. simpl in H.
  destruct (rev p) eqn:E; [|discriminate].
  apply (f_equal (@rev char)) in E. rewrite rev_involutive in E.
  now subst.
Qed.

Lemma inside_loop_acc (ls out : list line) (d : Z) :
  inside_loop out d ls = out ++ inside_loop [] d ls.
Proof.
  revert out d. induction ls as [|l rest IH]; intros out d.
  - simpl. now rewrite app_nil_r.
  - cbn [inside_loop app].
    set (c1 := match rest with
               | [] => false
               | nxt :: _ =>
                   (0 <? d)%Z
                   && (startswith_any (strip nxt) control_starts
                       && negb (isempty (strip l))
                       && negb (startswith (strip l) (lit "//")))
               end).
    assert (H1 : forall o : list line,
      match rest with
      | [] => o ++ [l]
      | nxt :: _ =>
          if (0 <? d)%Z
          then if startswith_any (strip nxt) control_starts
                  && negb (isempty (strip l))
                  && negb (startswith (strip l) (lit "//"))
               then sep (o ++ [l]) else o ++ [l]
          else o ++ [l]
      end = o ++ (if c1 then sep [l] else [l])).
    { intros o. subst c1. destruct rest as [|nxt rest']; [reflexivity|].
      destruct (0 <? d)%Z; [|reflexivity]. cbn [andb].
      destruct (startswith_any (strip nxt) control_starts
                && negb (isempty (strip l))
                && negb (startswith (strip l) (lit "//"))); [|reflexivity].
      apply sep_app. discriminate. }
    rewrite (H1 out). specialize (H1 []). cbn [app] in H1. rewrite H1.
    set (o1 := if c1 then sep [l] else [l]).
    assert (Ho1 : o1 <> []).
    { subst o1. destruct c1; [rewrite sep_one; destruct (is_blank l)|];
        discriminate. }
    set (c2 := match dropwhile_blank rest with
               | [] => false
               | lj :: _ => negb (isempty (strip lj))
                            && negb (startswith_any (strip lj) closers)
               end).
    assert (H2 : forall o : list line,
      (if endswith (strip l) (lit "}") && (0 <? d)%Z
       then match dropwhile_blank rest with
            | [] => o ++ o1
            | lj :: _ =>
                if negb (isempty (strip lj))
                   && negb (startswith_any (strip lj) closers)
                then sep (o ++ o1) else o ++ o1
            end
       else o ++ o1)
      = o ++ (if endswith (strip l) (lit "}") && (0 <? d)%Z && c2
              then sep o1 else o1)).
    { intros o. subst c2.
      destruct (endswith (strip l) (lit "}") && (0 <? d)%Z); [|reflexivity].
      cbn [andb]. destruct (dropwhile_blank rest) as [|lj t]; [reflexivity|].
      destruct (negb (isempty (strip lj))
                && negb (startswith_any (strip lj) closers)); [|reflexivity].
      now apply sep_app. }
    rewrite (H2 out). specialize (H2 []). cbn [app] in H2. rewrite H2.
    match goal with
    | |- inside_loop (out ++ ?X) _ _ = _ =>
        rewrite (IH (out ++ X)), (IH X)
    end.
    now rewrite <- app_assoc.
Qed.

(** One turn of the loop of inside_fn_blank_lines: the line, then a line
    feed when one of the two rules fires. *)
Lemma inside_cons (d : Z) (l : line) (rest : list line) :
  inside_loop [] d (l :: rest)
  = l :: (if control_unspaced d l rest || brace_then_statement d l rest
          then [nl] else [])
      ++ inside_loop [] (d + brace_delta l) rest.
Proof.
  cbn [inside_loop app]. rewrite inside_loop_acc.
  change (l :: ?g ++ ?t) with ((l :: g) ++ t). f_equal.
  unfold control_unspaced, brace_then_statement.
  assert (Hs : sep [l] = if is_blank l then [l] else [l; nl])
    by apply sep_one.
  assert (Hn : sep [l; nl] = [l; nl]) by apply (sep_after_nl [l]).
  pose proof (@endswith_nonblank l (lit "}")) as He.
  unfold is_blank in *.
  destruct (0 <? d)%Z; rewrite ?andb_false_r, ?andb_true_r; cbn [andb orb].
  - destruct (endswith (strip l) (lit "}")).
    + rewrite He in * by (reflexivity || discriminate). cbn [negb andb] in *.
      rewrite ?andb_true_r.
      destruct rest as [|nxt r]; cbn [dropwhile_blank]; [reflexivity|].
      unfold is_blank.
      destruct (startswith_any (strip nxt) control_starts);
        destruct (startswith (strip l) (lit "//"));
        cbn [negb andb orb]; rewrite ?Hs;
        destruct (if isempty (strip nxt) then dropwhile_blank r
                  else nxt :: r) as [|lj t];
        try reflexivity;
        destruct (negb (isempty (strip lj))
                  && negb (startswith_any (strip lj) closers));
        rewrite ?Hs, ?Hn; reflexivity.
    + cbn [andb orb]. rewrite ?orb_false_r.
      destruct rest as [|nxt r]; [reflexivity|].
      destruct (startswith_any (strip nxt) control_starts); [|reflexivity].
      cbn [andb]. rewrite Hs.
      destruct (isempty (strip l)); [reflexivity|].
      destruct (startswith (strip l) (lit "//")); reflexivity.
  - destruct rest; reflexivity.
Qed.

Lemma sep_gap (out : list line) :
  sep out = out ++ (if last_nonblank out then [nl] else []).
Proof. unfold sep. destruct (last_nonblank out); now rewrite ?app_nil_r. Qed.

(** plugin_chain_spacing in one pass. *)
Lemma plugin_loop_emit (ls : list line) :
  forall out prev,
    plugin_loop out prev ls
    = out ++ plugin_emit (last_nonblank out) prev ls.
Proof.
  induction ls as [|l rest IH]; intros out prev.
  - simpl. now rewrite app_nil_r.
  - cbn [plugin_loop plugin_emit]. unfold is_blank at 1.
    destruct (isempty (strip l)) eqn:E; cbn [negb].
    + rewrite IH, last_nonblank_snoc. unfold is_blank. rewrite E.
      now rewrite <- app_assoc.
    + rewrite IH, last_nonblank_snoc. unfold is_blank at 1. rewrite E.
      cbn [negb]. destruct (phase_boundary prev (strip l)); cbn [andb].
      * rewrite sep_gap. destruct (last_nonblank out);
          now rewrite <- !app_assoc.
      * now rewrite <- app_assoc.
Qed.

Section GroupEmit.

Variable tbl : char -> bool.

Lemma group_emit_after (after : list line) (lb lb' : bool) :
  match after with [] => True | a :: _ => is_import tbl a = false end ->
  group_emit tbl true lb after = group_emit tbl true lb' after.
Proof.
  destruct after as [|a t]; [reflexivity|]. intros Ha.
  cbn [group_emit]. now rewrite Ha.
Qed.

Lemma group_emit_in_block (block after : list line) (lb : bool) :
  forallb (is_import tbl) block = true ->
  match after with [] => True | a :: _ => is_import tbl a = false end ->
  group_emit tbl true lb (block ++ after)
  = block ++ group_emit tbl true lb after.
Proof.
  intros Hb Ha. revert lb. induction block as [|x b IH]; intros lb.
  - reflexivity.
  - simpl in Hb. apply andb_true_iff in Hb. destruct Hb as [Hx Hb].
    cbn [app group_emit]. rewrite Hx. cbn [negb andb app].
    rewrite (IH Hb). f_equal. f_equal. now apply group_emit_after.
Qed.

(** group_import_blocks in one pass. *)
Lemma group_loop_emit (fuel : nat) :
  forall ls out,
    List.length ls <= fuel ->
    group_loop tbl fuel out ls
    = out ++ group_emit tbl false (last_nonblank out) ls.
Proof.
  induction fuel as [|fuel IH]; intros ls out Hlen.
  - destruct ls; [|simpl in Hlen; lia]. simpl. now rewrite app_nil_r.
  - destruct ls as [|l rest]; [simpl; now rewrite app_nil_r|].
    cbn [group_loop]. destruct (is_import tbl l) eqn:E.
    + pose proof (take_block_spec tbl (l :: rest) (sep out)) as Hs.
      destruct (take_block tbl (sep out) (l :: rest)) as [o after].
      destruct Hs as (block & -> & Hsplit & Hb & Ha).
      destruct block as [|x b].
      { simpl in Hsplit. subst after. congruence. }
      injection Hsplit as <- Hrest. subst rest.
      simpl in Hlen. rewrite length_app in Hlen.
      rewrite IH by (destruct after; simpl in *; lia).
      cbn [group_emit]. rewrite E. cbn [negb andb].
      simpl in Hb. apply andb_true_iff in Hb.
      rewrite (@group_emit_in_block b after _ (proj2 Hb) Ha).
      rewrite sep_gap.
      destruct after as [|a t].
      * cbn [group_emit]. rewrite !app_nil_r.
        destruct (last_nonblank out); cbn [app];
          now rewrite <- ?app_assoc.
      * cbn [group_emit]. rewrite Ha. cbn [andb].
        destruct (is_blank a); cbn [negb app];
          destruct (last_nonblank out); cbn [app];
          rewrite <- ?app_assoc; cbn [app]; reflexivity.
    + simpl in Hlen. rewrite IH by lia. cbn [group_emit]. rewrite E.
      cbn [andb app]. now rewrite last_nonblank_snoc, <- app_assoc.
Qed.

End GroupEmit.

(* ================================================================== *)
(** ** What a blank line is to the passes *)

Lemma blank_unclassified (tbl : char -> bool) (l : line) :
  is_blank l = true ->
  is_import tbl l = false /\ starts_item tbl l = false.
Proof.
  intros Hb. apply is_blank_spec in Hb.
  destruct l as [|c rest]; [split; reflexivity|].
  simpl in Hb. apply andb_true_iff in Hb. destruct Hb as [Hc _].
  unfold is_import, starts_item, re_match. cbn -[startswith].
  rewrite !startswith_space by (exact Hc || reflexivity).
  split; reflexivity.
Qed.

Lemma count_spaces (l : str) (c : char) :
  forallb isspace l = true -> isspace c = false -> count l c = 0%Z.
Proof.
  intros Hl Hc. induction l as [|x l IH]; [reflexivity|].
  simpl in Hl. apply andb_true_iff in Hl. destruct Hl as [Hx Hl].
  simpl. rewrite (IH Hl).
  destruct (N.eqb_spec x c) as [->|_]; [congruence|reflexivity].
Qed.

Lemma brace_delta_blank (l : line) : is_blank l = true -> brace_delta l = 0%Z.
Proof.
  intros Hb. apply is_blank_spec in Hb. unfold brace_delta.
  now rewrite !(@count_spaces l _ Hb) by reflexivity.
Qed.

Lemma strip_blank (l : line) : is_blank l = true -> strip l = [].
Proof. unfold is_blank. now destruct (strip l). Qed.

Lemma control_unspaced_blank (d : Z) (l : line) (rest : list line) :
  is_blank l = true -> control_unspaced d l rest = false.
Proof.
  intros Hb. unfold control_unspaced. destruct rest; [reflexivity|].
  rewrite Hb. cbn [negb]. now rewrite andb_false_r.
Qed.

Lemma brace_then_statement_blank (d : Z) (l : line) (rest : list line) :
  is_blank l = true -> brace_then_statement d l rest = false.
Proof.
  intros Hb. unfold brace_then_statement. now rewrite (@strip_blank l Hb).
Qed.

(* ================================================================== *)
(** ** The insertion passes fill gaps *)

Lemma gaps_cons (a : line) (ls body : list line) (g : bool) :
  gaps_filled ls body -> (g = true -> ls <> []) ->
  gaps_filled (a :: ls) (a :: (if g then [nl] else []) ++ body).
Proof.
  intros H Hg. destruct ls as [|b t].
  - inversion H; subst. destruct g; [now destruct Hg|constructor].
  - destruct g; cbn [app]; now constructor.
Qed.

Lemma gaps_filled_hd (b : line) (ls out : list line) :
  gaps_filled (b :: ls) out -> exists t, out = b :: t.
Proof. intros H. inversion H; subst; eauto. Qed.

Lemma ensure_gaps (tbl : char -> bool) (ls : list line) :
  gaps_filled ls (ensure_loop tbl [] ls).
Proof.
  induction ls as [|l rest IH]; [constructor|].
  rewrite ensure_cons. apply gaps_cons; [exact IH|].
  unfold needs_sep. destruct rest; [discriminate|discriminate].
Qed.

Lemma inside_gaps (ls : list line) :
  forall d, gaps_filled ls (inside_loop [] d ls).
Proof.
  induction ls as [|l rest IH]; intros d; [constructor|].
  rewrite inside_cons. apply gaps_cons; [apply IH|].
  destruct rest; [|discriminate].
  unfold control_unspaced, brace_then_statement. cbn [dropwhile_blank].
  rewrite andb_false_r. discriminate.
Qed.

Lemma plugin_gaps (ls : list line) :
  forall lb prev,
  exists (g : bool) body,
    plugin_emit lb prev ls = (if g then [nl] else []) ++ body
    /\ gaps_filled ls body
    /\ (g = true -> lb = true /\ ls <> []).
Proof.
  induction ls as [|l rest IH]; intros lb prev.
  - exists false, []. repeat split; try constructor; discriminate.
  - cbn [plugin_emit]. destruct (is_blank l).
    + destruct (IH false prev) as (g & body & -> & Hg & Hlb).
      exists false, (l :: (if g then [nl] else []) ++ body).
      split; [reflexivity|]. split; [|discriminate].
      apply gaps_cons; [exact Hg|]. intros E. now apply Hlb.
    + destruct (IH true (strip l)) as (g & body & -> & Hg & Hlb).
      exists (phase_boundary prev (strip l) && lb),
             (l :: (if g then [nl] else []) ++ body).
      split; [reflexivity|]. split.
      * apply gaps_cons; [exact Hg|]. intros E. now apply Hlb.
      * intros E. apply andb_true_iff in E. split; [apply E|discriminate].
Qed.

Lemma group_gaps (tbl : char -> bool) (ls : list line) :
  forall in_block lb,
  exists (g : bool) body,
    group_emit tbl in_block lb ls = (if g then [nl] else []) ++ body
    /\ gaps_filled ls body
    /\ (g = true -> (in_block = true \/ lb = true) /\ ls <> []).
Proof.
  induction ls as [|l rest IH]; intros in_block lb.
  - exists false, []. repeat split; try constructor; discriminate.
  - cbn [group_emit]. destruct (is_import tbl l).
    + destruct (IH true (negb (is_blank l))) as (g & body & -> & Hg & Hlb).
      exists (negb in_block && lb), (l :: (if g then [nl] else []) ++ body).
      split; [reflexivity|]. split.
      * apply gaps_cons; [exact Hg|]. intros E. now apply Hlb.
      * intros E. apply andb_true_iff in E.
        split; [right; apply E|discriminate].
    + destruct (IH false (negb (is_blank l))) as (g & body & -> & Hg & Hlb).
      exists (in_block && negb (is_blank l)),
             (l :: (if g then [nl] else []) ++ body).
      split; [reflexivity|]. split.
      * apply gaps_cons; [exact Hg|]. intros E. now apply Hlb.
      * intros E. apply andb_true_iff in E.
        split; [left; apply E|discriminate].
Qed.

Lemma pass_gaps (tbl : char -> bool) (ls : list line) :
  gaps_filled ls (group_import_blocks tbl ls)
  /\ gaps_filled ls (ensure_single_blank_between_items tbl ls)
  /\ gaps_filled ls (plugin_chain_spacing ls)
  /\ gaps_filled ls (inside_fn_blank_lines ls).
Proof.
  repeat apply conj.
  - unfold group_import_blocks.
    rewrite group_loop_emit by lia. cbn [app last_nonblank].
    destruct (group_gaps tbl ls false false) as (g & body & -> & Hg & Hlb).
    destruct g; [|exact Hg].
    destruct (Hlb eq_refl) as [[H|H] _]; discriminate.
  - apply ensure_gaps.
  - unfold plugin_chain_spacing. rewrite plugin_loop_emit.
    cbn [app last_nonblank].
    destruct (plugin_gaps ls false []) as (g & body & -> & Hg & Hlb).
    destruct g; [|exact Hg].
    destruct (Hlb eq_refl) as [H _]. discriminate.
  - apply inside_gaps.
Qed.

(* ================================================================== *)
(** ** Each pass sets its rule *)

Lemma adjacent_all_cons (P : line -> line -> bool) (a : line)
    (ls : list line) :
  adjacent_all P (a :: ls)
  = match ls with [] => true | b :: _ => P a b end && adjacent_all P ls.
Proof. destruct ls; reflexivity. Qed.

Lemma ensure_hd (tbl : char -> bool) (rest : list line) :
  hd_error (ensure_loop tbl [] rest) = hd_error rest.
Proof. destruct rest; [reflexivity|]. now rewrite ensure_cons. Qed.

Lemma ensure_sets_rule (tbl : char -> bool) (ls : list line) :
  rule_items tbl (ensure_loop tbl [] ls) = true.
Proof.
  unfold rule_items. induction ls as [|l rest IH]; [reflexivity|].
  rewrite ensure_cons. unfold needs_sep.
  pose proof (ensure_hd tbl rest) as Hhd.
  destruct rest as [|nx rest']; [reflexivity|].
  destruct (ensure_loop tbl [] (nx :: rest')) as [|y t] eqn:E;
    [discriminate|].
  injection Hhd as ->.
  destruct (starts_item tbl nx) eqn:Hs; cbn [andb].
  - destruct (is_blank l) eqn:Hb; cbn [negb andb app].
    + rewrite adjacent_all_cons, IH, Hs, Hb. reflexivity.
    + destruct (attr_or_doc l) eqn:Ha; cbn [negb app].
      * rewrite adjacent_all_cons, IH, Hs, Hb, Ha. reflexivity.
      * do 2 rewrite adjacent_all_cons. rewrite IH.
        rewrite (proj2 (blank_unclassified tbl nl is_blank_nl)).
        rewrite is_blank_nl, Hs. reflexivity.
  - cbn [app]. rewrite adjacent_all_cons, IH, Hs. reflexivity.
Qed.

Lemma group_sets_rule_from (tbl : char -> bool) (ls : list line) :
  forall prev,
    adjacent_all
      (fun a b =>
         implb (negb (is_import tbl a) && is_import tbl b) (is_blank a)
         && implb (is_import tbl a && negb (is_import tbl b)) (is_blank b))
      (prev :: group_emit tbl (is_import tbl prev) (negb (is_blank prev)) ls)
    = true.
Proof.
  pose proof (proj1 (blank_unclassified tbl nl is_blank_nl)) as Hnl.
  induction ls as [|l rest IH]; intros prev; [reflexivity|].
  cbn [group_emit]. specialize (IH l).
  destruct (is_import tbl l) eqn:El.
  - destruct (is_import tbl prev) eqn:Ep; cbn [negb andb app] in *.
    + rewrite adjacent_all_cons, IH, Ep, El. reflexivity.
    + destruct (is_blank prev) eqn:Hb; cbn [negb app] in *.
      * rewrite adjacent_all_cons, IH, Ep, El, Hb. reflexivity.
      * do 2 rewrite adjacent_all_cons. rewrite IH, Ep, El, Hnl, is_blank_nl.
        reflexivity.
  - destruct (is_import tbl prev) eqn:Ep; cbn [negb andb app] in *.
    + destruct (is_blank l) eqn:Hb; cbn [negb app] in *.
      * rewrite adjacent_all_cons, IH, Ep, El, Hb. reflexivity.
      * do 2 rewrite adjacent_all_cons. rewrite IH, Ep, El, Hnl, is_blank_nl.
        reflexivity.
    + rewrite adjacent_all_cons, IH, Ep, El. reflexivity.
Qed.

Lemma group_sets_rule (tbl : char -> bool) (ls : list line) :
  rule_import_blocks tbl (group_emit tbl false false ls) = true.
Proof.
  unfold rule_import_blocks. destruct ls as [|l rest]; [reflexivity|].
  cbn [group_emit]. pose proof (group_sets_rule_from tbl rest l) as H.
  destruct (is_import tbl l); cbn [negb andb app]; exact H.
Qed.

Lemma phase_boundary_nil (s : str) : phase_boundary [] s = false.
Proof.
  unfold phase_boundary. cbn [isempty negb].
  now rewrite !andb_false_r.
Qed.

Lemma plugin_sets_rule (ls : list line) :
  forall lb prev bb,
    (lb = false -> bb = true \/ prev = []) ->
    rule_phases_from prev bb (plugin_emit lb prev ls) = true.
Proof.
  induction ls as [|l rest IH]; intros lb prev bb Hinv; [reflexivity|].
  cbn [plugin_emit]. destruct (is_blank l) eqn:Hb.
  - cbn [rule_phases_from]. rewrite Hb. apply IH. auto.
  - destruct (phase_boundary prev (strip l)) eqn:Hp; cbn [andb].
    + destruct lb; cbn [app rule_phases_from].
      * rewrite is_blank_nl, Hb, Hp. cbn [implb andb].
        apply IH. discriminate.
      * rewrite Hb, Hp.
        destruct (Hinv eq_refl) as [->| ->].
        -- cbn [implb andb]. apply IH. discriminate.
        -- now rewrite phase_boundary_nil in Hp.
    + cbn [app rule_phases_from]. rewrite Hb, Hp. cbn [implb andb].
      apply IH. discriminate.
Qed.

Lemma inside_hd (ls : list line) (d : Z) :
  hd_error (inside_loop [] d ls) = hd_error ls.
Proof. destruct ls; [reflexivity|]. now rewrite inside_cons. Qed.

Lemma control_unspaced_hd (d : Z) (l : line) (r1 r2 : list line) :
  hd_error r1 = hd_error r2 ->
  control_unspaced d l r1 = control_unspaced d l r2.
Proof.
  unfold control_unspaced. destruct r1, r2; simpl; intros H;
    try discriminate; [reflexivity|]. now injection H as ->.
Qed.

Lemma brace_then_statement_hd (d : Z) (l : line) (r1 r2 : list line) :
  hd_error (dropwhile_blank r1) = hd_error (dropwhile_blank r2) ->
  brace_then_statement d l r1 = brace_then_statement d l r2.
Proof.
  unfold brace_then_statement.
  destruct (dropwhile_blank r1), (dropwhile_blank r2); simpl; intros H;
    try discriminate; [reflexivity|]. now injection H as ->.
Qed.

Lemma next_is_blank_hd (r1 r2 : list line) :
  hd_error r1 = hd_error r2 -> next_is_blank r1 = next_is_blank r2.
Proof.
  unfold next_is_blank. destruct r1, r2; simpl; intros H;
    try discriminate; [reflexivity|]. now injection H as ->.
Qed.

Lemma inside_next_statement (ls : list line) :
  forall d,
    hd_error (dropwhile_blank (inside_loop [] d ls))
    = hd_error (dropwhile_blank ls).
Proof.
  induction ls as [|l rest IH]; intros d; [reflexivity|].
  rewrite inside_cons. cbn [dropwhile_blank].
  destruct (is_blank l) eqn:Hb; [|reflexivity].
  rewrite (@control_unspaced_blank d l rest Hb),
          (@brace_then_statement_blank d l rest Hb).
  cbn [orb app]. apply IH.
Qed.

Lemma inside_sets_rules (ls : list line) :
  forall d,
    in_blocks_all (fun d l rest => negb (control_unspaced d l rest))
                  d (inside_loop [] d ls) = true
    /\ in_blocks_all
         (fun d l rest =>
            implb (brace_then_statement d l rest) (next_is_blank rest))
         d (inside_loop [] d ls) = true.
Proof.
  induction ls as [|l rest IH]; intros d; [split; reflexivity|].
  rewrite inside_cons. destruct (IH (d + brace_delta l)%Z) as [IH1 IH2].
  pose proof (@control_unspaced_hd d l _ _
                (inside_hd rest (d + brace_delta l))) as Hc.
  pose proof (@brace_then_statement_hd d l _ _
                (inside_next_statement rest (d + brace_delta l))) as Hb.
  destruct (control_unspaced d l rest || brace_then_statement d l rest)
    eqn:Hg; cbn [app in_blocks_all].
  - rewrite (@brace_delta_blank nl is_blank_nl), Z.add_0_r, IH1, IH2.
    rewrite (@control_unspaced_blank (d + brace_delta l) nl
               (inside_loop [] (d + brace_delta l) rest) is_blank_nl),
            (@brace_then_statement_blank (d + brace_delta l) nl
               (inside_loop [] (d + brace_delta l) rest) is_blank_nl).
    cbn [negb implb andb]. rewrite !andb_true_r.
    split.
    + unfold control_unspaced. cbn [strip]. now rewrite !andb_false_r.
    + cbn [next_is_blank]. rewrite is_blank_nl.
      now destruct (brace_then_statement d l _).
  - apply orb_false_iff in Hg. destruct Hg as [Hg1 Hg2].
    rewrite Hc, Hb, Hg1, Hg2, IH1, IH2. split; reflexivity.
Qed.

(* ================================================================== *)
(** ** Later passes keep the rules set by earlier ones *)

Lemma adjacent_all_gaps (P : line -> line -> bool) :
  (forall a, P a nl = true) -> (forall b, P nl b = true) ->
  forall ls out,
    gaps_filled ls out -> adjacent_all P ls = true ->
    adjacent_all P out = true.
Proof.
  intros Hl Hr ls out H. induction H as [|l|a b ls out H IH|a b ls out H IH];
    intros Hadj; try assumption.
  - destruct (gaps_filled_hd H) as (t & ->).
    cbn [adjacent_all] in *. apply andb_true_iff in Hadj.
    destruct Hadj as [Hab Hrest]. rewrite Hab. now apply IH.
  - destruct (gaps_filled_hd H) as (t & ->).
    cbn [adjacent_all] in Hadj. apply andb_true_iff in Hadj.
    destruct Hadj as [Hab Hrest].
    do 2 rewrite adjacent_all_cons. rewrite Hl, Hr. now apply IH.
Qed.

Lemma phases_mono (ls : list line) (prev : str) (bb : bool) :
  rule_phases_from prev bb ls = true -> rule_phases_from prev true ls = true.
Proof.
  destruct ls as [|l rest]; [auto|]. cbn [rule_phases_from].
  destruct (is_blank l); [auto|].
  intros H. apply andb_true_iff in H. destruct H as [_ ->].
  now destruct (phase_boundary prev (strip l)).
Qed.

Lemma phases_gaps (ls out : list line) :
  gaps_filled ls out ->
  forall prev bb,
    rule_phases_from prev bb ls = true -> rule_phases_from prev bb out = true.
Proof.
  intros H. induction H as [|l|a b ls out H IH|a b ls out H IH];
    intros prev bb Hr; try assumption.
  - cbn [rule_phases_from] in *. destruct (is_blank a); [now apply IH|].
    apply andb_true_iff in Hr. destruct Hr as [-> Hr]. now apply IH.
  - cbn [rule_phases_from] in *. rewrite is_blank_nl.
    destruct (is_blank a); [now apply IH|].
    apply andb_true_iff in Hr. destruct Hr as [-> Hr].
    apply IH in Hr. now apply phases_mono in Hr.
Qed.

Lemma cap_cons (run : nat) (l : line) (rest : list line) :
  cap_loop 2 [] run (l :: rest)
  = if is_blank l
    then if S run <=? 2
         then @cons line nl (cap_loop 2 [] (S run) rest)
         else cap_loop 2 [] (S run) rest
    else l :: cap_loop 2 [] 0 rest.
Proof.
  cbn [cap_loop app].
  destruct (is_blank l); [destruct (S run <=? 2)|];
    try reflexivity; now rewrite cap_loop_acc.
Qed.

Lemma bare_blank (l : line) : is_blank l = true -> bare l = nl.
Proof. unfold bare. now intros ->. Qed.

Lemma bare_nonblank (l : line) : is_blank l = false -> bare l = l.
Proof. unfold bare. now intros ->. Qed.

Lemma is_blank_bare (l : line) : is_blank (bare l) = is_blank l.
Proof. unfold bare. destruct (is_blank l) eqn:E; [reflexivity|exact E]. Qed.

Lemma cap_adjacent (P : line -> line -> bool) :
  (forall a b, P (bare a) (bare b) = P a b) ->
  forall ls run prev,
    (1 <= run -> is_blank prev = true) ->
    adjacent_all P (prev :: ls) = true ->
    adjacent_all P (bare prev :: cap_loop 2 [] run ls) = true.
Proof.
  intros HP. induction ls as [|l rest IH]; intros run prev Hrun H;
    [reflexivity|].
  cbn [adjacent_all] in H. apply andb_true_iff in H. destruct H as [Hp Hr].
  rewrite cap_cons. destruct (is_blank l) eqn:Hb.
  - assert (IHl : adjacent_all P (bare l :: cap_loop 2 [] (S run) rest)
                  = true) by (apply IH; auto).
    rewrite (bare_blank l Hb) in IHl.
    destruct (S run <=? 2) eqn:L.
    + rewrite adjacent_all_cons, IHl, <- (bare_blank l Hb), HP, Hp.
      reflexivity.
    + apply Nat.leb_gt in L. rewrite bare_blank by (apply Hrun; lia).
      exact IHl.
  - assert (IHl : adjacent_all P (bare l :: cap_loop 2 [] 0 rest) = true)
      by (apply IH; [lia|assumption]).
    rewrite (bare_nonblank l Hb) in IHl.
    rewrite adjacent_all_cons, IHl. rewrite <- (bare_nonblank l Hb) at 1.
    now rewrite HP, Hp.
Qed.

Lemma cap_adjacent_top (P : line -> line -> bool) (ls : list line) :
  (forall a b, P (bare a) (bare b) = P a b) ->
  adjacent_all P ls = true ->
  adjacent_all P (cap_loop 2 [] 0 ls) = true.
Proof.
  intros HP H. destruct ls as [|l rest]; [reflexivity|].
  rewrite cap_cons. destruct (is_blank l) eqn:Hb; cbn [Nat.leb].
  - rewrite <- (bare_blank l Hb). apply cap_adjacent; auto.
  - rewrite <- (bare_nonblank l Hb) at 1. apply cap_adjacent; auto. lia.
Qed.

Lemma cap_phases (ls : list line) :
  forall run prev bb,
    (1 <= run -> bb = true) ->
    rule_phases_from prev bb ls = true ->
    rule_phases_from prev bb (cap_loop 2 [] run ls) = true.
Proof.
  induction ls as [|l rest IH]; intros run prev bb Hrun H; [reflexivity|].
  rewrite cap_cons. cbn [rule_phases_from] in H.
  destruct (is_blank l) eqn:Hb.
  - destruct (S run <=? 2) eqn:L.
    + cbn [rule_phases_from]. rewrite is_blank_nl. apply IH; auto.
    + apply Nat.leb_gt in L. rewrite (Hrun ltac:(lia)). apply IH; auto.
  - cbn [rule_phases_from]. rewrite Hb.
    apply andb_true_iff in H. destruct H as [-> H]. apply IH; [lia|exact H].
Qed.

Lemma cap_next_statement (ls : list line) :
  forall run,
    hd_error (dropwhile_blank (cap_loop 2 [] run ls))
    = hd_error (dropwhile_blank ls).
Proof.
  induction ls as [|l rest IH]; intros run; [reflexivity|].
  rewrite cap_cons. cbn [dropwhile_blank].
  destruct (is_blank l) eqn:Hb.
  - destruct (S run <=? 2); [cbn [dropwhile_blank]; rewrite is_blank_nl|];
      apply IH.
  - cbn [dropwhile_blank]. now rewrite Hb.
Qed.

Lemma cap_control_unspaced (d : Z) (l : line) (rest : list line) :
  control_unspaced d l (cap_loop 2 [] 0 rest) = control_unspaced d l rest.
Proof.
  destruct rest as [|x r]; [reflexivity|]. rewrite cap_cons.
  destruct (is_blank x) eqn:Hb; [|reflexivity]. cbn [Nat.leb].
  unfold control_unspaced. now rewrite (@strip_blank x Hb).
Qed.

Lemma cap_next_is_blank (rest : list line) :
  next_is_blank (cap_loop 2 [] 0 rest) = next_is_blank rest.
Proof.
  destruct rest as [|x r]; [reflexivity|]. rewrite cap_cons.
  destruct (is_blank x) eqn:Hb; cbn [Nat.leb next_is_blank];
    [now rewrite is_blank_nl, Hb|reflexivity].
Qed.

Lemma cap_in_blocks (P : Z -> line -> list line -> bool) :
  (forall d l r, is_blank l = true -> P d l r = true) ->
  (forall d l r, P d l (cap_loop 2 [] 0 r) = P d l r) ->
  forall ls run d,
    in_blocks_all P d ls = true ->
    in_blocks_all P d (cap_loop 2 [] run ls) = true.
Proof.
  intros Hblank Hcap. induction ls as [|l rest IH]; intros run d H;
    [reflexivity|].
  rewrite cap_cons. cbn [in_blocks_all] in H.
  apply andb_true_iff in H. destruct H as [Hp Hr].
  destruct (is_blank l) eqn:Hb.
  - rewrite (brace_delta_blank l Hb), Z.add_0_r in Hr.
    destruct (S run <=? 2).
    + cbn [in_blocks_all].
      rewrite (Hblank _ _ _ is_blank_nl), (brace_delta_blank nl is_blank_nl),
        Z.add_0_r.
      now apply IH.
    + now apply IH.
  - cbn [in_blocks_all]. rewrite Hcap, Hp. now apply IH.
Qed.

(** The rules, pass by pass: which pass sets them and which keep them. *)
Lemma pipeline_rules (tbl : char -> bool) (ls : list line) :
  satisfies_spacing_rules tbl (pipeline tbl ls) = true.
Proof.
  unfold pipeline.
  set (g := group_import_blocks tbl ls).
  set (e := ensure_single_blank_between_items tbl g).
  set (p := plugin_chain_spacing e).
  set (i := inside_fn_blank_lines p).
  destruct (pass_gaps tbl g) as (_ & Hge & _).
  destruct (pass_gaps tbl e) as (_ & _ & Hep & _).
  destruct (pass_gaps tbl p) as (_ & _ & _ & Hpi).
  fold e in Hge. fold p in Hep. fold i in Hpi.
  pose proof (proj1 (blank_unclassified tbl nl is_blank_nl)) as Himp.
  pose proof (proj2 (blank_unclassified tbl nl is_blank_nl)) as Hitem.
  (* group_import_blocks *)
  assert (R1 : rule_import_blocks tbl i = true).
  { assert (Hg : rule_import_blocks tbl g = true).
    { subst g. unfold group_import_blocks.
      rewrite group_loop_emit by lia. apply group_sets_rule. }
    unfold rule_import_blocks in *.
    assert (Hl : forall a : line,
      implb (negb (is_import tbl a) && is_import tbl nl) (is_blank a)
      && implb (is_import tbl a && negb (is_import tbl nl)) (is_blank nl)
      = true).
    { intros a. rewrite Himp, is_blank_nl, andb_false_r.
      now destruct (is_import tbl a). }
    assert (Hr : forall b : line,
      implb (negb (is_import tbl nl) && is_import tbl b) (is_blank nl)
      && implb (is_import tbl nl && negb (is_import tbl b)) (is_blank b)
      = true).
    { intros b. rewrite Himp, is_blank_nl.
      now destruct (is_import tbl b). }
    apply (adjacent_all_gaps _ Hl Hr Hpi).
    apply (adjacent_all_gaps _ Hl Hr Hep).
    now apply (adjacent_all_gaps _ Hl Hr Hge). }
  (* ensure_single_blank_between_items *)
  assert (R2 : rule_items tbl i = true).
  { assert (He : rule_items tbl e = true) by apply ensure_sets_rule.
    unfold rule_items in *.
    assert (Hl : forall a : line,
      implb (starts_item tbl nl) (is_blank a || attr_or_doc a) = true)
      by (intros a; now rewrite Hitem).
    assert (Hr : forall b : line,
      implb (starts_item tbl b) (is_blank nl || attr_or_doc nl) = true)
      by (intros b; rewrite is_blank_nl; now destruct (starts_item tbl b)).
    apply (adjacent_all_gaps _ Hl Hr Hpi).
    now apply (adjacent_all_gaps _ Hl Hr Hep). }
  (* plugin_chain_spacing *)
  assert (R3 : rule_phases i = true).
  { unfold rule_phases. apply (phases_gaps Hpi).
    subst p. unfold plugin_chain_spacing. rewrite plugin_loop_emit.
    cbn [app last_nonblank]. apply plugin_sets_rule. auto. }
  (* inside_fn_blank_lines *)
  destruct (inside_sets_rules p 0) as [R4 R5]. fold (inside_fn_blank_lines p) in R4, R5.
  fold i in R4, R5.
  unfold satisfies_spacing_rules, cap_consecutive_blank_lines.
  repeat (apply andb_true_iff; split).
  - unfold rule_import_blocks in *. apply cap_adjacent_top; [|exact R1].
    intros a b. unfold bare.
    destruct (is_blank a) eqn:Ha, (is_blank b) eqn:Hb;
      rewrite ?Himp, ?is_blank_nl, ?Ha, ?Hb,
        ?(proj1 (blank_unclassified tbl a Ha)),
        ?(proj1 (blank_unclassified tbl b Hb)); reflexivity.
  - unfold rule_items in *. apply cap_adjacent_top; [|exact R2].
    intros a b. unfold bare.
    destruct (is_blank a) eqn:Ha, (is_blank b) eqn:Hb;
      rewrite ?Hitem, ?is_blank_nl, ?Ha,
        ?(proj2 (blank_unclassified tbl b Hb)); reflexivity.
  - unfold rule_phases in *. apply cap_phases; [lia|exact R3].
  - unfold rule_control_flow. apply cap_in_blocks; [| |exact R4].
    + intros d l r Hb. now rewrite control_unspaced_blank.
    + intros d l r. now rewrite cap_control_unspaced.
  - unfold rule_closing_brace. apply cap_in_blocks; [| |exact R5].
    + intros d l r Hb. now rewrite brace_then_statement_blank.
    + intros d l r. rewrite cap_next_is_blank.
      now rewrite (@brace_then_statement_hd d l _ _ (cap_next_statement r 0)).
  - unfold rule_cap, blank_runs.
    assert (H : blank_runs_from 0 (cap_loop 2 [] 0 i)
                = List.map (fun k => Nat.min k 2) (blank_runs_from 0 i))
      by apply (cap_loop_runs 2 i 0).
    rewrite H. apply forallb_forall. intros k Hk.
    apply in_map_iff in Hk. destruct Hk as (k' & <- & _).
    apply Nat.leb_le. lia.
Qed.

(* ================================================================== *)
(** ** What the passes do to a text, and what they leave *)

Lemma gaps_filled_bounds (ls out : list line) :
  gaps_filled ls out ->
  List.length ls <= List.length out <= 2 * List.length ls
  /\ hd_error out = hd_error ls
  /\ last out [] = last ls [].
Proof.
  induction 1 as [|l|a b ls out H IH|a b ls out H IH].
  - simpl. repeat split; lia.
  - simpl. repeat split; lia.
  - destruct (gaps_filled_hd H) as (t & ->).
    destruct IH as (Hlen & _ & Hlast). simpl in *.
    repeat split; try lia. exact Hlast.
  - destruct (gaps_filled_hd H) as (t & ->).
    destruct IH as (Hlen & _ & Hlast). simpl in *.
    repeat split; try lia. exact Hlast.
Qed.

(** X3.  group_import_blocks, ensure_single_blank_between_items,
    plugin_chain_spacing and inside_fn_blank_lines return their input with
    a line feed put between some pairs of consecutive lines, at most one
    per pair: no line is removed or changed, blank or not, nothing is put
    before the first line or after the last, and the output is at most
    twice as long. *)
Theorem insertion_passes_fill_gaps (tbl : char -> bool) (ls : list line) :
  gaps_filled ls (group_import_blocks tbl ls)
  /\ gaps_filled ls (ensure_single_blank_between_items tbl ls)
  /\ gaps_filled ls (plugin_chain_spacing ls)
  /\ gaps_filled ls (inside_fn_blank_lines ls)
  /\ (forall out, gaps_filled ls out ->
        List.length ls <= List.length out <= 2 * List.length ls
        /\ hd_error out = hd_error ls
        /\ last out [] = last ls []).
Proof.
  destruct (pass_gaps tbl ls) as (H1 & H2 & H3 & H4).
  repeat (split; [assumption|]). intros out. apply gaps_filled_bounds.
Qed.

Lemma group_idem (tbl : char -> bool) (ls : list line) :
  rule_import_blocks tbl ls = true -> group_import_blocks tbl ls = ls.
Proof.
  intros H. unfold group_import_blocks.
  apply (@group_loop_id tbl (List.length ls) ls []); auto.
  destruct ls; auto.
Qed.

Lemma plugin_idem (ls : list line) :
  rule_phases ls = true -> plugin_chain_spacing ls = ls.
Proof.
  intros H. unfold plugin_chain_spacing.
  apply (@plugin_loop_id ls [] [] false); [exact H|discriminate].
Qed.

Lemma cap_idem (ls : list line) :
  blanks_bare ls -> rule_cap ls = true ->
  cap_consecutive_blank_lines ls 2 = ls.
Proof. intros Hb Hr. now apply (@cap_loop_id ls [] 0). Qed.

Lemma group_output_rule (tbl : char -> bool) (ls : list line) :
  rule_import_blocks tbl (group_import_blocks tbl ls) = true.
Proof.
  unfold group_import_blocks. rewrite group_loop_emit by lia.
  apply group_sets_rule.
Qed.

Lemma plugin_output_rule (ls : list line) :
  rule_phases (plugin_chain_spacing ls) = true.
Proof.
  unfold rule_phases, plugin_chain_spacing. rewrite plugin_loop_emit.
  cbn [app last_nonblank]. apply plugin_sets_rule. auto.
Qed.

Lemma cap_output_rule (ls : list line) :
  rule_cap (cap_consecutive_blank_lines ls 2) = true.
Proof.
  unfold rule_cap, blank_runs, cap_consecutive_blank_lines.
  assert (H : blank_runs_from 0 (cap_loop 2 [] 0 ls)
              = List.map (fun k => Nat.min k 2) (blank_runs_from 0 ls))
    by apply (cap_loop_runs 2 ls 0).
  rewrite H. apply forallb_forall. intros k Hk.
  apply in_map_iff in Hk. destruct Hk as (k' & <- & _).
  apply Nat.leb_le. lia.
Qed.

(** X4.  Four of the five passes are idempotent: group_import_blocks,
    ensure_single_blank_between_items, plugin_chain_spacing and
    cap_consecutive_blank_lines leave their own output as it is. *)
Theorem four_passes_idempotent (tbl : char -> bool) (ls : list line) :
  group_import_blocks tbl (group_import_blocks tbl ls)
  = group_import_blocks tbl ls
  /\ ensure_single_blank_between_items tbl
       (ensure_single_blank_between_items tbl ls)
     = ensure_single_blank_between_items tbl ls
  /\ plugin_chain_spacing (plugin_chain_spacing ls) = plugin_chain_spacing ls
  /\ cap_consecutive_blank_lines (cap_consecutive_blank_lines ls 2) 2
     = cap_consecutive_blank_lines ls 2.
Proof.
  repeat apply conj.
  - apply group_idem, group_output_rule.
  - apply (@ensure_loop_id tbl _ []), ensure_sets_rule.
  - apply plugin_idem, plugin_output_rule.
  - apply cap_idem; [|apply cap_output_rule].
    apply cap_loop_bare. constructor.
Qed.

(** X5.  The output of the pipeline has every blank line the rules ask for,
    whatever the input: import runs are bounded by blank lines, every item
    or import line follows a blank or an attribute line, every phase
    boundary, every control-flow start inside a block and every closing
    brace followed by a statement has its blank line, and no run of blank
    lines is longer than two. *)
Theorem pipeline_output_satisfies_rules (tbl : char -> bool)
    (ls : list line) :
  satisfies_spacing_rules tbl (pipeline tbl ls) = true.
Proof. apply pipeline_rules. Qed.

Lemma pipeline_other_passes (tbl : char -> bool) (o : list line) :
  satisfies_spacing_rules tbl o = true -> blanks_bare o ->
  group_import_blocks tbl o = o
  /\ ensure_single_blank_between_items tbl o = o
  /\ plugin_chain_spacing o = o
  /\ cap_consecutive_blank_lines o 2 = o
  /\ pipeline tbl o = cap_consecutive_blank_lines (inside_fn_blank_lines o) 2.
Proof.
  unfold satisfies_spacing_rules. intros H Hbare.
  repeat (apply andb_true_iff in H; destruct H as [H ?]).
  assert (Hg : group_import_blocks tbl o = o) by now apply group_idem.
  assert (He : ensure_single_blank_between_items tbl o = o)
    by now apply (@ensure_loop_id tbl o []).
  assert (Hp : plugin_chain_spacing o = o) by now apply plugin_idem.
  repeat (split; [assumption|]). split; [now apply cap_idem|].
  unfold pipeline. now rewrite Hg, He, Hp.
Qed.

(** X6.  On the pipeline's own output four passes change nothing: a second
    run is inside_fn_blank_lines followed by the cap, and it returns the
    output as it is when no closing brace inside a block is followed by a
    statement. *)
Theorem second_run_is_inside_then_cap (tbl : char -> bool) (ls : list line) :
  let o := pipeline tbl ls in
  group_import_blocks tbl o = o
  /\ ensure_single_blank_between_items tbl o = o
  /\ plugin_chain_spacing o = o
  /\ cap_consecutive_blank_lines o 2 = o
  /\ pipeline tbl o = cap_consecutive_blank_lines (inside_fn_blank_lines o) 2
  /\ (no_brace_then_statement o = true -> pipeline tbl o = o).
Proof.
  intros o.
  destruct (@pipeline_other_passes tbl o (pipeline_rules tbl ls)
              (pipeline_bare tbl ls)) as (H1 & H2 & H3 & H4 & H5).
  repeat (split; [assumption|]). intros Hb.
  apply pipeline_id; [apply pipeline_rules| |exact Hb].
  apply blanks_bareb_spec, pipeline_bare.
Qed.

Lemma count_nonneg (s : str) (c : char) : (0 <= count s c)%Z.
Proof.
  induction s as [|x s IH]; simpl; [lia|]. destruct (N.eqb x c); lia.
Qed.

Lemma inside_top_level (ls : list line) :
  forall d,
    in_blocks_all (fun d _ _ => (d <=? 0)%Z) d ls = true ->
    inside_loop [] d ls = ls.
Proof.
  induction ls as [|l rest IH]; intros d H; [reflexivity|].
  cbn [in_blocks_all] in H. apply andb_true_iff in H.
  destruct H as [Hd Hr]. apply Z.leb_le in Hd.
  rewrite inside_cons, (IH _ Hr).
  assert (E : (0 <? d)%Z = false) by (apply Z.ltb_ge; lia).
  unfold control_unspaced, brace_then_statement. rewrite E.
  rewrite andb_false_r. destruct rest; reflexivity.
Qed.

(** X7.  inside_fn_blank_lines touches nothing outside blocks: a text in
    which the brace depth before every line is at most 0 (no line lies
    inside an open brace) is returned as it is. *)
Theorem inside_leaves_top_level (ls : list line) :
  top_level ls = true -> inside_fn_blank_lines ls = ls.
Proof. apply inside_top_level. Qed.

Lemma inside_leaves_top_level_witness :
  inside_fn_blank_lines
    [ln "struct A {}"; ln "if x"; ln "}"; ln "return y"; ln "fn f() {"]
  = [ln "struct A {}"; ln "if x"; ln "}"; ln "return y"; ln "fn f() {"].
Proof. apply inside_leaves_top_level. vm_compute. reflexivity. Defined.

Lemma ink_app (a b : str) : ink (a ++ b) = ink a ++ ink b.
Proof. apply filter_app. Qed.

Lemma ink_blank (l : line) : is_blank l = true -> ink l = [].
Proof.
  intros H. apply is_blank_spec in H. unfold ink.
  induction l as [|c l IH]; [reflexivity|].
  simpl in H. apply andb_true_iff in H. destruct H as [Hc Hl].
  simpl. rewrite Hc. now apply IH.
Qed.

Lemma ink_join (ls : list line) :
  ink (join ls) = ink (join (nonblank_lines ls)).
Proof.
  unfold join. induction ls as [|l ls IH]; [reflexivity|].
  cbn [List.concat nonblank_lines filter]. rewrite ink_app, IH.
  destruct (is_blank l) eqn:E; cbn [negb List.concat].
  - now rewrite (ink_blank l E).
  - now rewrite ink_app.
Qed.

(** X8.  The pipeline changes whitespace only: the text it returns and the
    text it was given hold the same non-whitespace characters in the same
    order. *)
Theorem process_text_keeps_ink (tbl : char -> bool) (txt : str) :
  ink (process_text tbl txt) = ink txt.
Proof.
  unfold process_text. rewrite ink_join, pipeline_nonblank, <- ink_join.
  now rewrite join_splitlines.
Qed.

Lemma cap_zero (ls : list line) :
  forall run, cap_loop 0 [] run ls = nonblank_lines ls.
Proof.
  induction ls as [|l rest IH]; intros run; [reflexivity|].
  cbn [cap_loop nonblank_lines filter app Nat.leb].
  destruct (is_blank l); cbn [negb]; [apply IH|].
  rewrite cap_loop_acc. cbn [app]. f_equal. apply IH.
Qed.

(** X9.  For every bound [m], cap_consecutive_blank_lines turns each run of
    [k] blank lines into a run of [min k m] and keeps the non-blank lines;
    with the bound 0 it returns exactly the non-blank lines. *)
Theorem cap_any_bound (ls : list line) (m : nat) :
  blank_runs (cap_consecutive_blank_lines ls m)
  = List.map (fun k => Nat.min k m) (blank_runs ls)
  /\ nonblank_lines (cap_consecutive_blank_lines ls m) = nonblank_lines ls
  /\ cap_consecutive_blank_lines ls 0 = nonblank_lines ls.
Proof.
  repeat apply conj.
  - apply (cap_loop_runs m ls 0).
  - apply cap_loop_nonblank.
  - apply cap_zero.
Qed.

Lemma lines_cut_cons (x : line) (r : list line) :
  cut_line x -> lines_cut r -> lines_cut (x :: r).
Proof. intros Hx Hr. destruct r; cbn [lines_cut]; auto. Qed.

Lemma cut_line_snoc (cur : str) (c : char) :
  no_linebreak cur -> islinebreak c = true -> cut_line (cur ++ [c]).
Proof.
  intros Hcur Hc. exists cur, [c]. split; [reflexivity|].
  split; [exact Hcur|]. left. now exists c.
Qed.

(** Every line [splitlines] cuts ends with its terminator, and has no
    line-break character before it; the last line may lack it. *)
Lemma splitlines_from_cut (s : str) :
  forall cur, no_linebreak cur -> lines_cut (splitlines_from cur s).
Proof.
  induction s as [|c t IH IH2] using str_ind2; intros cur Hcur.
  - cbn [splitlines_from]. destruct cur as [|x cur']; [exact I|].
    cbn [isempty lines_cut]. right. split; [discriminate|exact Hcur].
  - cbn [splitlines_from]. destruct (islinebreak c) eqn:Ec.
    + destruct (N.eqb_spec c 13) as [E13|_].
      * destruct t as [|c' t'].
        -- apply lines_cut_cons; [now apply cut_line_snoc|exact I].
        -- destruct (N.eqb_spec c' 10) as [E10|_].
           ++ subst c c'. apply lines_cut_cons.
              ** exists cur, [13%N; 10%N]. split; [reflexivity|].
                 split; [exact Hcur|]. now right.
              ** apply (IH2 10%N t' eq_refl). constructor.
           ++ apply lines_cut_cons; [now apply cut_line_snoc|].
              apply IH. constructor.
      * apply lines_cut_cons; [now apply cut_line_snoc|].
        apply IH. constructor.
    + apply IH. apply Forall_app. split; [exact Hcur|].
      constructor; [exact Ec|constructor].
Qed.

(** X10.  Splitting a text into lines loses nothing: the lines joined give
    the text back and none of them is empty.  Every line is a text without
    line-break character followed by its terminator, which is one
    line-break character or a carriage return and a line feed; the last
    line alone may lack the terminator.  So a line-break character occurs
    in a line only in the terminator that ends it. *)
Theorem splitlines_lossless (txt : str) :
  join (splitlines txt) = txt
  /\ Forall line_shaped (splitlines txt)
  /\ lines_cut (splitlines txt).
Proof.
  split; [apply join_splitlines|]. split; [apply splitlines_shaped|].
  apply splitlines_from_cut. constructor.
Qed.

(* ================================================================== *)
(** ** The third run changes nothing *)

Lemma next_statement_nl (rest : list line) :
  hd_error (dropwhile_blank (nl :: rest)) = hd_error (dropwhile_blank rest).
Proof. cbn [dropwhile_blank]. now rewrite is_blank_nl. Qed.

(** After inside_fn_blank_lines, a closing brace followed by a statement
    has two blank lines after it when it had one before. *)
Lemma inside_doubles (ls : list line) :
  forall d,
    in_blocks_all
      (fun d l rest =>
         implb (brace_then_statement d l rest) (next_is_blank rest))
      d ls = true ->
    braces_double_spaced d (inside_loop [] d ls) = true.
Proof.
  unfold braces_double_spaced.
  induction ls as [|l rest IH]; intros d H; [reflexivity|].
  cbn [in_blocks_all] in H. apply andb_true_iff in H. destruct H as [Hl Hr].
  rewrite inside_cons. specialize (IH _ Hr).
  pose proof (inside_hd rest (d + brace_delta l)) as Hhd.
  pose proof (inside_next_statement rest (d + brace_delta l)) as Hns.
  destruct (control_unspaced d l rest || brace_then_statement d l rest)
    eqn:Hg; cbn [app in_blocks_all].
  - rewrite (brace_delta_blank nl is_blank_nl), Z.add_0_r, IH.
    rewrite (brace_then_statement_blank (d + brace_delta l) nl
               (inside_loop [] (d + brace_delta l) rest) is_blank_nl).
    cbn [implb andb]. rewrite andb_true_r.
    rewrite (brace_then_statement_hd d l (nl :: inside_loop [] _ rest) rest)
      by (now rewrite next_statement_nl).
    destruct (brace_then_statement d l rest); [|reflexivity].
    cbn [implb] in *. unfold next_is_blank in Hl.
    destruct rest as [|x r]; [discriminate|].
    destruct (inside_loop [] (d + brace_delta l) (x :: r)) as [|y t];
      [discriminate|].
    injection Hhd as ->. cbn [next_two_blank]. now rewrite is_blank_nl, Hl.
  - apply orb_false_iff in Hg. destruct Hg as [_ Hg].
    rewrite (brace_then_statement_hd d l _ rest Hns), Hg, IH. reflexivity.
Qed.

Lemma cap_next_two_blank (rest : list line) :
  next_two_blank (cap_loop 2 [] 0 rest) = next_two_blank rest.
Proof.
  destruct rest as [|a r]; [reflexivity|]. rewrite cap_cons.
  destruct (is_blank a) eqn:Ha; cbn [Nat.leb].
  - destruct r as [|b t]; [reflexivity|]. rewrite cap_cons.
    cbn [next_two_blank]. rewrite Ha, is_blank_nl.
    destruct (is_blank b) eqn:Hb; cbn [Nat.leb andb];
      [apply is_blank_nl|exact Hb].
  - destruct r as [|b t]; [reflexivity|]. rewrite cap_cons.
    cbn [next_two_blank]. rewrite Ha.
    destruct (is_blank b); reflexivity.
Qed.

Lemma cap_keeps_double (ls : list line) (d : Z) :
  braces_double_spaced d ls = true ->
  braces_double_spaced d (cap_loop 2 [] 0 ls) = true.
Proof.
  unfold braces_double_spaced. apply cap_in_blocks.
  - intros d' l r Hb. now rewrite brace_then_statement_blank.
  - intros d' l r. rewrite cap_next_two_blank.
    now rewrite (brace_then_statement_hd d' l _ r (cap_next_statement r 0)).
Qed.

(** Past two blank lines the count of the run no longer matters. *)
Lemma cap_saturated (ls : list line) :
  forall r1 r2, 2 <= r1 -> 2 <= r2 ->
    cap_loop 2 [] r1 ls = cap_loop 2 [] r2 ls.
Proof.
  induction ls as [|l rest IH]; intros r1 r2 H1 H2; [reflexivity|].
  rewrite !cap_cons. destruct (is_blank l); [|reflexivity].
  destruct (S r1 <=? 2) eqn:L1; [apply Nat.leb_le in L1; lia|].
  destruct (S r2 <=? 2) eqn:L2; [apply Nat.leb_le in L2; lia|].
  apply IH; lia.
Qed.

(** The cap takes back what inside_fn_blank_lines adds after a closing
    brace that has its two blank lines. *)
Lemma cap_absorbs_inside (ls : list line) :
  forall d run,
    braces_double_spaced d ls = true ->
    in_blocks_all (fun d l rest => negb (control_unspaced d l rest)) d ls
    = true ->
    cap_loop 2 [] run (inside_loop [] d ls) = cap_loop 2 [] run ls.
Proof.
  unfold braces_double_spaced.
  induction ls as [|l rest IH]; intros d run Hd Hc; [reflexivity|].
  cbn [in_blocks_all] in Hd, Hc.
  apply andb_true_iff in Hd. destruct Hd as [Hl Hd].
  apply andb_true_iff in Hc. destruct Hc as [Hcl Hc].
  apply negb_true_iff in Hcl.
  rewrite inside_cons, Hcl. cbn [orb].
  destruct (brace_then_statement d l rest) eqn:Hb; cbn [app].
  - assert (Hnb : is_blank l = false).
    { destruct (is_blank l) eqn:E; [|reflexivity].
      now rewrite (brace_then_statement_blank d l rest E) in Hb. }
    cbn [implb] in Hl. unfold next_two_blank in Hl.
    destruct rest as [|a [|b t]]; try discriminate.
    apply andb_true_iff in Hl. destruct Hl as [Ha Hbl].
    rewrite (cap_cons run l (nl :: _)), (cap_cons run l (a :: b :: t)), Hnb.
    f_equal.
    rewrite (cap_cons 0 nl _), is_blank_nl. cbn [Nat.leb].
    rewrite (IH _ 1 Hd Hc).
    rewrite (cap_cons 1 a), (cap_cons 0 a), Ha. cbn [Nat.leb]. f_equal.
    rewrite (cap_cons 2 b), (cap_cons 1 b), Hbl. cbn [Nat.leb]. f_equal.
    apply cap_saturated; lia.
  - rewrite !cap_cons.
    destruct (is_blank l); [destruct (S run <=? 2)|];
      now rewrite (IH _ _ Hd Hc).
Qed.

Lemma pipeline_twice_doubles (tbl : char -> bool) (o : list line) :
  satisfies_spacing_rules tbl o = true -> blanks_bare o ->
  braces_double_spaced 0 (pipeline tbl o) = true.
Proof.
  intros H Hbare.
  destruct (@pipeline_other_passes tbl o H Hbare) as (_ & _ & _ & _ & ->).
  unfold satisfies_spacing_rules in H.
  repeat (apply andb_true_iff in H; destruct H as [H ?]).
  apply cap_keeps_double, inside_doubles. assumption.
Qed.

Lemma pipeline_third_run (tbl : char -> bool) (ls : list line) :
  pipeline tbl (pipeline tbl (pipeline tbl ls))
  = pipeline tbl (pipeline tbl ls).
Proof.
  set (o1 := pipeline tbl ls). set (o2 := pipeline tbl o1).
  assert (R2 : satisfies_spacing_rules tbl o2 = true) by apply pipeline_rules.
  assert (B2 : blanks_bare o2) by apply pipeline_bare.
  assert (D2 : braces_double_spaced 0 o2 = true).
  { apply pipeline_twice_doubles; [apply pipeline_rules|apply pipeline_bare]. }
  destruct (@pipeline_other_passes tbl o2 R2 B2) as (_ & _ & _ & Hcap & ->).
  unfold satisfies_spacing_rules in R2.
  repeat (apply andb_true_iff in R2; destruct R2 as [R2 ?]).
  unfold cap_consecutive_blank_lines, inside_fn_blank_lines in *.
  rewrite cap_absorbs_inside by assumption. exact Hcap.
Qed.

(** X11.  The pipeline settles with its second run: run a third time, on
    the output of the second, it changes nothing. *)
Theorem pipeline_settles_in_two_runs (tbl : char -> bool) (ls : list line) :
  pipeline tbl (pipeline tbl (pipeline tbl ls))
  = pipeline tbl (pipeline tbl ls).
Proof. apply pipeline_third_run. Qed.

(* ================================================================== *)
(** ** What a batch writes *)

Section Batch.

Variables path FS exn : Type.
Variable path_str : path -> str.
Variable exn_str : exn -> str.
Variable read_text : path -> FS -> exn + str.
Variable write_text : path -> str -> FS -> FS * option exn.
Variable tbl : char -> bool.

Abbreviation world := (IO.world path FS).
Abbreviation process_file := (IO.process_file read_text write_text tbl).
Abbreviation main_loop :=
  (IO.main_loop path_str exn_str read_text write_text tbl).
Abbreviation main := (IO.main path_str exn_str read_text write_text tbl).

(** One file: at most one write, to that file, and [True] only after it. *)
Lemma process_file_writes (p : path) (w : world) :
  exists ws,
    written (snd (process_file p w)) = written w ++ ws
    /\ List.length ws <= 1
    /\ Forall (fun pw => fst pw = p) ws
    /\ stdout (snd (process_file p w)) = stdout w
    /\ (fst (process_file p w) = Ok true -> List.length ws = 1).
Proof.
  pose proof (process_file_cases read_text write_text tbl p w) as Hc.
  destruct (read_text p (fs w)) as [e|txt].
  - rewrite Hc. exists []. cbn [fst snd]. rewrite app_nil_r.
    repeat split; auto. discriminate.
  - destruct (str_eqb (process_text tbl txt) txt).
    + rewrite Hc. exists []. cbn [fst snd]. rewrite app_nil_r.
      repeat split; auto. discriminate.
    + destruct (write_text p (process_text tbl txt) (fs w)) as [fs' r].
      rewrite Hc. exists [(p, process_text tbl txt)]. cbn [fst snd written stdout].
      repeat split; auto.
Qed.

(** The writes of one file, put before the writes of the files after it. *)
Lemma subseq_front (p : path) (rest : list path)
    (ws1 ws : list (path * str)) :
  List.length ws1 <= 1 -> Forall (fun pw => fst pw = p) ws1 ->
  subseq (List.map fst ws) rest ->
  subseq (List.map fst (ws1 ++ ws)) (p :: rest).
Proof.
  intros Hl Hp Hs. destruct ws1 as [|pw [|pw' t]].
  - now apply subseq_skip.
  - inversion Hp as [|? ? E _]; subst. cbn [app List.map].
    now apply subseq_take.
  - simpl in Hl. lia.
Qed.

Lemma main_loop_writes (paths : list path) :
  forall (changed : nat) (w : world),
  exists k ws w',
    main_loop changed paths w = (Ok (changed + k), w')
    /\ written w' = written w ++ ws
    /\ stdout w' = stdout w
    /\ k <= List.length ws <= List.length paths
    /\ Forall (fun pw => In (fst pw) paths) ws
    /\ subseq (List.map fst ws) paths.
Proof.
  induction paths as [|p rest IH]; intros changed w.
  - exists 0, [], w. simpl. unfold ret.
    rewrite Nat.add_0_r, app_nil_r. repeat split; auto. constructor.
  - cbn [IO.main_loop]. unfold bind at 1. unfold try_except.
    unfold bind at 1.
    destruct (process_file_writes p w) as (ws1 & Hw1 & Hl1 & Hp1 & Ho1 & Ht1).
    destruct (process_file p w) as [[b|e] w1]; cbn [fst snd] in *.
    + unfold ret at 1.
      destruct (IH (if b then S changed else changed) w1)
        as (k & ws & w' & -> & Hw & Ho & Hk & Hin & Hsub).
      exists ((if b then 1 else 0) + k), (ws1 ++ ws), w'.
      split; [f_equal; f_equal; destruct b; lia|].
      split; [now rewrite Hw, Hw1, app_assoc|].
      split; [now rewrite Ho, Ho1|].
      split; [|split].
      * rewrite length_app. simpl.
        destruct b; [rewrite (Ht1 eq_refl)|]; lia.
      * apply Forall_app. split.
        -- eapply Forall_impl; [|exact Hp1]. intros pw <-. now left.
        -- eapply Forall_impl; [|exact Hin]. intros pw H. now right.
      * now apply subseq_front.
    + unfold bind, print_err, ret.
      set (w2 := World (fs w1) (written w1) (stdout w1)
                       (stderr w1 ++ [warning path_str exn_str p e])).
      destruct (IH changed w2)
        as (k & ws & w' & -> & Hw & Ho & Hk & Hin & Hsub).
      exists k, (ws1 ++ ws), w'.
      split; [reflexivity|].
      split; [subst w2; cbn [written] in Hw; now rewrite Hw, Hw1, app_assoc|].
      split; [subst w2; cbn [stdout] in Ho; now rewrite Ho, Ho1|].
      split; [|split].
      * rewrite length_app. simpl. lia.
      * apply Forall_app. split.
        -- eapply Forall_impl; [|exact Hp1]. intros pw <-. now left.
        -- eapply Forall_impl; [|exact Hin]. intros pw H. now right.
      * now apply subseq_front.
Qed.

(** X12.  A batch writes only to files of the batch, at most once for each
    path it was given and in the order of the paths: the paths written to,
    in the order of the writes, are the paths of the batch with some left
    out.  Every file counted in the total printed at the end was
    written. *)
Theorem main_writes_only_batch (paths : list path) (w : world) :
  exists k ws w',
    main paths w = (Ok tt, w')
    /\ written w' = written w ++ ws
    /\ stdout w' = stdout w ++ [lit "Files changed: " ++ decimal k]
    /\ k <= List.length ws <= List.length paths
    /\ Forall (fun pw => In (fst pw) paths) ws
    /\ subseq (List.map fst ws) paths.
Proof.
  destruct (main_loop_writes paths 0 w)
    as (k & ws & w1 & Hm & Hw & Ho & Hk & Hin & Hsub).
  unfold IO.main, bind. rewrite Hm. unfold print_out. cbn [Nat.add].
  exists k, ws. eexists. split; [reflexivity|]. cbn [written stdout].
  rewrite Hw, Ho. auto 10.
Qed.

End Batch.

(* ================================================================== *)
(** ** Import lines end up apart *)

Section Imports.

Variable tbl : char -> bool.

Lemma spaces_then_mono (k1 k2 : option char -> str -> bool) :
  (forall p s, k1 p s = true -> k2 p s = true) ->
  forall s, spaces_then k1 s = true -> spaces_then k2 s = true.
Proof.
  intros Hk. induction s as [|c t IH]; [discriminate|].
  cbn [spaces_then]. intros H. apply andb_true_iff in H.
  destruct H as [-> H]. apply orb_true_iff in H. cbn [andb].
  apply orb_true_iff. destruct H as [H|H]; [left; now apply IH|right; auto].
Qed.

(** A pattern that matches with a continuation matches with any weaker
    one. *)
Lemma matches_mono (r : re) :
  forall k1 k2 : option char -> str -> bool,
    (forall p s, k1 p s = true -> k2 p s = true) ->
    forall p s, matches tbl r k1 p s = true -> matches tbl r k2 p s = true.
Proof.
  induction r as [|w| | |r1 IH1 r2 IH2|r1 IH1 r2 IH2|r1 IH1];
    intros k1 k2 Hk p s; cbn [matches].
  - destruct p; auto.
  - intros H. apply andb_true_iff in H. destruct H as [-> H]. now apply Hk.
  - now apply spaces_then_mono.
  - intros H. apply andb_true_iff in H. destruct H as [-> H]. now apply Hk.
  - apply IH1. intros p' s'. now apply IH2.
  - intros H. apply orb_true_iff in H. apply orb_true_iff.
    destruct H as [H|H]; [left; revert H; now apply IH1
                         |right; revert H; now apply IH2].
  - intros H. apply orb_true_iff in H. apply orb_true_iff.
    destruct H as [H|H]; [left; revert H; now apply IH1|right; auto].
Qed.

Hypothesis tbl_no_space : forall c, isspace c = true -> tbl c = false.

Lemma space_not_word (c : char) : isspace c = true -> isword tbl c = false.
Proof.
  intros Hc. unfold isword. rewrite (tbl_no_space c Hc), andb_false_r.
  rewrite orb_false_r. destruct (ascii_word c) eqn:E; [|reflexivity].
  exfalso. unfold isspace, ascii_word in *.
  repeat rewrite ?orb_true_iff, ?andb_true_iff, ?N.leb_le, ?N.eqb_eq in *.
  lia.
Qed.

(** A keyword followed by whitespace ends at a word boundary. *)
Lemma keyword_then_space (w : str) (x : char) (w' : str)
    (k : option char -> str -> bool) (p : option char) (s : str) :
  rev w = x :: w' -> isword tbl x = true ->
  matches tbl (Seq (Lit w) Spaces) k p s = true ->
  matches tbl (Seq (Lit w) WordB) (fun _ _ => true) p s = true.
Proof.
  intros Hw Hx. cbn [matches]. rewrite Hw. intros H.
  apply andb_true_iff in H. destruct H as [-> H]. cbn [andb].
  destruct (skipn (List.length w) s) as [|c t]; [discriminate|].
  cbn [spaces_then] in H. apply andb_true_iff in H. destruct H as [Hc _].
  cbn [isword_opt hd_error]. rewrite Hx, (space_not_word c Hc). reflexivity.
Qed.

Lemma seq_tail_mono (r1 r2 X Y : re) (k : option char -> str -> bool) :
  (forall p s, matches tbl X k p s = true -> matches tbl Y k p s = true) ->
  forall p s,
    matches tbl (Seq r1 (Seq r2 X)) k p s = true ->
    matches tbl (Seq r1 (Seq r2 Y)) k p s = true.
Proof.
  intros H p s. cbn [matches]. apply (matches_mono r1).
  intros p' s'. now apply (matches_mono r2).
Qed.

Lemma matches_alt_seq (A B W : re) (k : option char -> str -> bool)
    (p : option char) (s : str) :
  matches tbl (Seq (Alt A B) W) k p s
  = matches tbl (Seq A W) k p s || matches tbl (Seq B W) k p s.
Proof. reflexivity. Qed.

(** What group_import_blocks takes for an import,
    ensure_single_blank_between_items takes for an item start. *)
Lemma import_is_item (l : line) :
  is_import tbl l = true -> starts_item tbl l = true.
Proof.
  unfold is_import, starts_item, re_match, use_re, mod_re, use_mod_re.
  intros H. apply orb_true_iff. right. cbn [alts].
  apply orb_true_iff in H. destruct H as [H|H]; revert H;
    apply seq_tail_mono; intros p s H; rewrite matches_alt_seq;
    apply orb_true_iff; [left|right]; revert H.
  - now apply (@keyword_then_space (lit "use") 101%N (rev (lit "us"))).
  - now apply (@keyword_then_space (lit "mod") 100%N (rev (lit "mo"))).
Qed.

End Imports.

Lemma strip_head (x : char) (t : str) :
  isspace x = false -> exists r, strip (x :: t) = x :: r.
Proof.
  intros Hx. unfold strip. cbn [lstrip]. rewrite Hx. cbn [rstrip].
  destruct (rstrip t); rewrite ?Hx; eauto.
Qed.

Lemma import_not_attr (tbl : char -> bool) (l : line) :
  is_import tbl l = true -> is_blank l = false /\ attr_or_doc l = false.
Proof.
  intros H.
  assert (Hb : is_blank l = false).
  { destruct (is_blank l) eqn:E; [|reflexivity].
    now rewrite (proj1 (blank_unclassified tbl l E)) in H. }
  split; [exact Hb|].
  destruct l as [|x t]; [discriminate|].
  destruct (isspace x) eqn:Hx.
  - exfalso. revert H. unfold is_import, re_match. cbn -[startswith].
    rewrite !startswith_space by (exact Hx || reflexivity). discriminate.
  - destruct (strip_head x t Hx) as (r & Hs).
    unfold attr_or_doc. rewrite Hs.
    destruct (N.eqb_spec x 35) as [->|H35]; [discriminate H|].
    destruct (N.eqb_spec x 47) as [->|H47]; [discriminate H|].
    unfold startswith_any. cbn -[N.eqb].
    destruct (N.eqb_spec 35 x) as [E|_]; [now subst|].
    destruct (N.eqb_spec 47 x) as [E|_]; [now subst|].
    reflexivity.
Qed.

Lemma adjacent_all_impl (P Q : line -> line -> bool) (ls : list line) :
  (forall a b, P a b = true -> Q a b = true) ->
  adjacent_all P ls = true -> adjacent_all Q ls = true.
Proof.
  intros HPQ. induction ls as [|a rest IH]; [reflexivity|].
  rewrite !adjacent_all_cons. intros H. apply andb_true_iff in H.
  destruct H as [H1 H2]. rewrite (IH H2), andb_true_r.
  destruct rest; [reflexivity|]. now apply HPQ.
Qed.

(** X13.  When no whitespace character counts as alphanumeric, no two
    import lines are next to each other in the pipeline's output:
    ensure_single_blank_between_items takes every import line for an item
    start and puts a blank line before it, inside the blocks that
    group_import_blocks has just formed as well. *)
Theorem imports_end_up_apart (tbl : char -> bool) (ls : list line) :
  (forall c, isspace c = true -> tbl c = false) ->
  adjacent_all (fun a b => negb (is_import tbl a && is_import tbl b))
               (pipeline tbl ls) = true
  /\ adjacent_all (fun a b => negb (is_import tbl a && is_import tbl b))
                  (ensure_single_blank_between_items tbl ls) = true.
Proof.
  intros Htbl.
  assert (Himp : forall a b : line,
    implb (starts_item tbl b) (is_blank a || attr_or_doc a) = true ->
    negb (is_import tbl a && is_import tbl b) = true).
  { intros a b H.
    destruct (is_import tbl a) eqn:Ea; [|reflexivity].
    destruct (is_import tbl b) eqn:Eb; [|reflexivity].
    rewrite (import_is_item tbl Htbl b Eb) in H.
    destruct (import_not_attr tbl a Ea) as [Hb Ha].
    now rewrite Hb, Ha in H. }
  split.
  - pose proof (pipeline_rules tbl ls) as H.
    unfold satisfies_spacing_rules in H.
    repeat (apply andb_true_iff in H; destruct H as [H ?]).
    eapply adjacent_all_impl; [exact Himp|]. assumption.
  - eapply adjacent_all_impl; [exact Himp|]. apply ensure_sets_rule.
Qed.

Lemma imports_end_up_apart_witness :
  adjacent_all
    (fun a b => negb (is_import no_alnum a && is_import no_alnum b))
    (pipeline no_alnum [ln "use a::b;"; ln "use c::d;"; ln "fn main() {}"])
  = true.
Proof.
  apply (proj1 (imports_end_up_apart no_alnum
    [ln "use a::b;"; ln "use c::d;"; ln "fn main() {}"]
    (fun c _ => eq_refl))).
Defined.

(** The scenario of two imports and a function: the imports are split. *)
Example two_imports_and_fn :
  pipeline no_alnum [ln "use a::b;"; ln "use c::d;"; ln "fn main() {}"]
  = [ln "use a::b;"; nl; ln "use c::d;"; nl; ln "fn main() {}"].
Proof. vm_compute. reflexivity. Qed.

(* ================================================================== *)
(** ** Where each pass inserts *)

Lemma ensure_weave (tbl : char -> bool) (ls : list line) (d : Z) :
  ensure_loop tbl [] ls = weave (fun _ l rest => needs_sep tbl l rest) d ls.
Proof.
  revert d. induction ls as [|l rest IH]; intros d; [reflexivity|].
  rewrite ensure_cons. cbn [weave]. now rewrite (IH (d + brace_delta l)%Z).
Qed.

Lemma inside_weave (ls : list line) (d : Z) :
  inside_loop [] d ls
  = weave (fun d l rest =>
             control_unspaced d l rest || brace_then_statement d l rest)
          d ls.
Proof.
  revert d. induction ls as [|l rest IH]; intros d; [reflexivity|].
  rewrite inside_cons. cbn [weave]. now rewrite IH.
Qed.

(** X14.  Each insertion pass is one walk over the lines.
    ensure_single_blank_between_items puts a line feed after a line
    exactly when the next line is an item start and the line is neither
    blank nor an attribute; inside_fn_blank_lines exactly when the line is
    inside a block and either is a non-blank, non-comment line before a
    control-flow start, or ends with a closing brace and is followed, past
    blank lines, by a statement, whether or not a blank line is already
    there; plugin_chain_spacing and group_import_blocks are the walks
    [plugin_emit] and [group_emit]. *)
Theorem passes_in_one_walk (tbl : char -> bool) (ls : list line) :
  ensure_single_blank_between_items tbl ls
  = weave (fun _ l rest => needs_sep tbl l rest) 0 ls
  /\ inside_fn_blank_lines ls
     = weave (fun d l rest =>
                control_unspaced d l rest || brace_then_statement d l rest)
             0 ls
  /\ plugin_chain_spacing ls = plugin_emit false [] ls
  /\ group_import_blocks tbl ls = group_emit tbl false false ls.
Proof.
  repeat apply conj.
  - apply ensure_weave.
  - apply inside_weave.
  - unfold plugin_chain_spacing. now rewrite plugin_loop_emit.
  - unfold group_import_blocks. now rewrite group_loop_emit by lia.
Qed.

(* ================================================================== *)
(** ** Texts the passes have nothing to do with *)

Lemma phase_boundary_opens (prev s : str) :
  opens_phase s = false -> phase_boundary prev s = false.
Proof.
  unfold opens_phase, phase_boundary. intros H.
  apply orb_false_iff in H. destruct H as [H H3].
  apply orb_false_iff in H. destruct H as [H1 H2].
  now rewrite H1, H2, H3.
Qed.

Lemma plugin_emit_plain (ls : list line) :
  forallb (fun l => negb (opens_phase (strip l))) ls = true ->
  forall lb prev, plugin_emit lb prev ls = ls.
Proof.
  induction ls as [|l rest IH]; intros H lb prev; [reflexivity|].
  cbn [forallb] in H. apply andb_true_iff in H. destruct H as [Hl Hr].
  apply negb_true_iff in Hl. cbn [plugin_emit].
  rewrite (phase_boundary_opens prev _ Hl). cbn [andb app].
  destruct (is_blank l); now rewrite (IH Hr).
Qed.

(** X15.  plugin_chain_spacing leaves alone a text none of whose lines
    holds [.configure_sets(], [.add_systems(Startup] or
    [.add_systems(Update]: it inserts before such lines only. *)
Theorem plugin_leaves_plain_text (ls : list line) :
  forallb (fun l => negb (opens_phase (strip l))) ls = true ->
  plugin_chain_spacing ls = ls.
Proof.
  intros H. unfold plugin_chain_spacing. rewrite plugin_loop_emit.
  cbn [app]. now apply plugin_emit_plain.
Qed.

Lemma plugin_leaves_plain_text_witness :
  plugin_chain_spacing [ln "app.insert_resource(A);"; ln "app.run();"]
  = [ln "app.insert_resource(A);"; ln "app.run();"].
Proof. apply plugin_leaves_plain_text. vm_compute. reflexivity. Defined.

Lemma indented_unclassified (tbl : char -> bool) (l : line) :
  indented l = true ->
  is_import tbl l = false /\ starts_item tbl l = false.
Proof.
  destruct l as [|c rest]; [split; reflexivity|]. cbn [indented].
  intros Hc. unfold is_import, starts_item, re_match. cbn -[startswith].
  rewrite !startswith_space by (exact Hc || reflexivity).
  split; reflexivity.
Qed.

Lemma adjacent_all_true (P : line -> line -> bool) (ls : list line) :
  (forall a b, In a ls -> In b ls -> P a b = true) ->
  adjacent_all P ls = true.
Proof.
  induction ls as [|a rest IH]; intros H; [reflexivity|].
  rewrite adjacent_all_cons, IH.
  - destruct rest as [|b t]; [reflexivity|].
    rewrite H; [reflexivity|now left|right; now left].
  - intros x y Hx Hy. apply H; now right.
Qed.

(** X16.  The two declaration passes read unindented lines only: a text all
    of whose lines are empty or begin with whitespace goes through
    group_import_blocks and ensure_single_blank_between_items unchanged. *)
Theorem indented_text_unchanged (tbl : char -> bool) (ls : list line) :
  forallb indented ls = true ->
  group_import_blocks tbl ls = ls
  /\ ensure_single_blank_between_items tbl ls = ls.
Proof.
  intros H. rewrite forallb_forall in H.
  split.
  - apply group_idem. unfold rule_import_blocks.
    apply adjacent_all_true. intros a b Ha Hb.
    rewrite (proj1 (indented_unclassified tbl a (H a Ha))).
    rewrite (proj1 (indented_unclassified tbl b (H b Hb))).
    reflexivity.
  - apply (@ensure_loop_id tbl ls []). unfold rule_items.
    apply adjacent_all_true. intros a b Ha Hb.
    rewrite (proj2 (indented_unclassified tbl b (H b Hb))).
    reflexivity.
Qed.

Lemma indented_text_unchanged_witness :
  group_import_blocks no_alnum [ln "    use a::b;"; ln "    fn f() {}"]
  = [ln "    use a::b;"; ln "    fn f() {}"]
  /\ ensure_single_blank_between_items no_alnum
       [ln "    use a::b;"; ln "    fn f() {}"]
     = [ln "    use a::b;"; ln "    fn f() {}"].
Proof. apply indented_text_unchanged. reflexivity. Defined.

(* ================================================================== *)
(** ** From lines back to text *)

Lemma splitlines_from_line (body : str) :
  forall cur t more,
    no_linebreak body -> islinebreak t = true -> t <> 13%N ->
    splitlines_from cur (body ++ t :: more)
    = (cur ++ body ++ [t]) :: splitlines_from [] more.
Proof.
  induction body as [|c b IH]; intros cur t more Hb Ht H13.
  - cbn [app splitlines_from]. rewrite Ht.
    destruct (N.eqb_spec t 13) as [E|_]; [contradiction|reflexivity].
  - inversion Hb as [|? ? Hc Hb']; subst.
    cbn [app splitlines_from]. rewrite Hc.
    rewrite (IH (cur ++ [c]) t more Hb' Ht H13).
    now rewrite <- app_assoc.
Qed.

Lemma splitlines_from_rest (l : str) :
  forall cur, no_linebreak l -> l <> [] -> splitlines_from cur l = [cur ++ l].
Proof.
  induction l as [|c b IH]; intros cur Hl Hne; [contradiction|].
  inversion Hl as [|? ? Hc Hb]; subst.
  cbn [splitlines_from]. rewrite Hc.
  destruct b as [|c' b'].
  - cbn [splitlines_from]. destruct (cur ++ [c]) eqn:E; [|reflexivity].
    destruct cur; discriminate.
  - rewrite (IH (cur ++ [c]) Hb) by discriminate.
    now rewrite <- app_assoc.
Qed.

(** The lines of a text without carriage returns come back from their
    join. *)
Lemma splitlines_join (ls : list line) :
  well_terminated ls -> splitlines (join ls) = ls.
Proof.
  unfold splitlines, join.
  induction ls as [|l rest IH]; intros H; [reflexivity|].
  cbn [well_terminated] in H. cbn [List.concat].
  destruct rest as [|l' rest'].
  - cbn [List.concat]. rewrite app_nil_r.
    destruct H as [(body & t & -> & Hb & Ht & H13)|[Hne Hl]].
    + now rewrite (@splitlines_from_line body [] t [] Hb Ht H13).
    + now rewrite (@splitlines_from_rest l [] Hl Hne).
  - destruct H as [(body & t & -> & Hb & Ht & H13) Hr].
    rewrite <- app_assoc. cbn [app].
    rewrite (@splitlines_from_line body [] t _ Hb Ht H13). cbn [app].
    now rewrite (IH Hr).
Qed.

Lemma terminated_nl : terminated nl.
Proof.
  exists [], 10%N. repeat split; [constructor|discriminate].
Qed.

Lemma well_terminated_cons (x : line) (r : list line) :
  terminated x -> well_terminated r -> well_terminated (x :: r).
Proof. intros Hx Hr. destruct r; cbn [well_terminated]; auto. Qed.

Lemma well_terminated_gaps (ls out : list line) :
  gaps_filled ls out -> well_terminated ls -> well_terminated out.
Proof.
  induction 1 as [|l|a b ls out H IH|a b ls out H IH]; intros Hw;
    try assumption.
  - destruct Hw as [Ha Hr]. apply well_terminated_cons; auto.
  - destruct Hw as [Ha Hr]. apply well_terminated_cons; auto.
    apply well_terminated_cons; [apply terminated_nl|auto].
Qed.

Lemma well_terminated_cap (ls : list line) :
  well_terminated ls ->
  forall run, well_terminated (cap_loop 2 [] run ls).
Proof.
  induction ls as [|l rest IH]; intros H run; [exact I|].
  rewrite cap_cons. cbn [well_terminated] in H.
  destruct rest as [|r0 rs].
  - destruct (is_blank l); [destruct (S run <=? 2)|]; cbn;
      auto using terminated_nl.
  - destruct H as [Hl Hr].
    destruct (is_blank l); [destruct (S run <=? 2)|];
      auto using well_terminated_cons, terminated_nl.
Qed.

Lemma well_terminated_split (s : str) :
  forall cur,
    no_linebreak cur -> ~ In 13%N s ->
    well_terminated (splitlines_from cur s).
Proof.
  induction s as [|c t IH]; intros cur Hcur H13.
  - cbn [splitlines_from]. destruct cur as [|x cur']; [exact I|].
    cbn [isempty well_terminated]. right. split; [discriminate|exact Hcur].
  - assert (Hc13 : c <> 13%N) by (intros ->; apply H13; now left).
    assert (Ht13 : ~ In 13%N t) by (intros Hin; apply H13; now right).
    cbn [splitlines_from]. destruct (islinebreak c) eqn:Ec.
    + destruct (N.eqb_spec c 13) as [E|_]; [contradiction|].
      apply well_terminated_cons; [|apply IH; [constructor|exact Ht13]].
      exists cur, c. auto.
    + apply IH; [|exact Ht13]. apply Forall_app. split; [exact Hcur|].
      constructor; [exact Ec|constructor].
Qed.

Lemma pipeline_well_terminated (tbl : char -> bool) (ls : list line) :
  well_terminated ls -> well_terminated (pipeline tbl ls).
Proof.
  intros H. unfold pipeline, cap_consecutive_blank_lines.
  apply well_terminated_cap.
  set (g := group_import_blocks tbl ls).
  set (e := ensure_single_blank_between_items tbl g).
  set (p := plugin_chain_spacing e).
  destruct (pass_gaps tbl ls) as (Hg & _).
  destruct (pass_gaps tbl g) as (_ & He & _).
  destruct (pass_gaps tbl e) as (_ & _ & Hp & _).
  destruct (pass_gaps tbl p) as (_ & _ & _ & Hi).
  apply (well_terminated_gaps Hi). apply (well_terminated_gaps Hp).
  apply (well_terminated_gaps He). now apply (well_terminated_gaps Hg).
Qed.

(** X17.  On a text without carriage returns, as read_text returns it,
    process_file's text settles with the second run: the pipeline's lines
    come back from their join as they were, and a third run returns the
    text of the second. *)
Theorem process_text_settles_in_two_runs (tbl : char -> bool) (txt : str) :
  ~ In 13%N txt ->
  splitlines (process_text tbl txt) = pipeline tbl (splitlines txt)
  /\ process_text tbl (process_text tbl (process_text tbl txt))
     = process_text tbl (process_text tbl txt).
Proof.
  intros H13. unfold process_text.
  assert (W0 : well_terminated (splitlines txt))
    by (apply well_terminated_split; [constructor|exact H13]).
  set (o1 := pipeline tbl (splitlines txt)).
  assert (W1 : well_terminated o1) by now apply pipeline_well_terminated.
  rewrite (splitlines_join o1 W1). split; [reflexivity|].
  assert (W2 : well_terminated (pipeline tbl o1))
    by now apply pipeline_well_terminated.
  rewrite (splitlines_join _ W2). subst o1.
  now rewrite pipeline_third_run.
Qed.

Lemma process_text_settles_in_two_runs_witness :
  process_text no_alnum
    (process_text no_alnum (process_text no_alnum (join nested_if)))
  = process_text no_alnum (process_text no_alnum (join nested_if)).
Proof.
  apply (process_text_settles_in_two_runs no_alnum (join nested_if)).
  vm_compute. intuition discriminate.
Defined.

(** With a carriage return the join can merge lines: the line feed put
    after a line ended by a carriage return makes one terminator with it. *)
Example carriage_return_merges :
  pipeline no_alnum (splitlines [120%N; 13%N; 102%N; 110%N])
  = [[120%N; 13%N]; nl; [102%N; 110%N]]
  /\ splitlines (process_text no_alnum [120%N; 13%N; 102%N; 110%N])
     = [[120%N; 13%N; 10%N]; [102%N; 110%N]].
Proof. split; vm_compute; reflexivity. Qed.

(* ================================================================== *)
(** ** The texts the pipeline leaves as they are *)



(** The two readings of a control-flow start on a few trimmed texts: they
    part on an identifier that begins with [loop], which only the source
    takes, and on a keyword directly followed by a delimiter, which only
    section 4.1 takes. *)
Example control_start_readings :
  List.map (fun s => (spec_control_start space_or_opening (lit s),
                      startswith_any (lit s) control_starts))
           ["if x {"; "loop {"; "loop_count = 0;"; "while(x) {"; "iffy();";
            "return;"]%string
  = [(true, true); (true, true); (false, true); (true, false);
     (false, false); (false, false)].
Proof. vm_compute. reflexivity. Qed.






Section NoWrite.

Variables path FS exn : Type.
Variable read_text : path -> FS -> exn + str.
Variable write_text : path -> str -> FS -> FS * option exn.
Variable tbl : char -> bool.

Abbreviation process_file := (IO.process_file read_text write_text tbl).


End NoWrite.


(* ================================================================== *)
(** ** What the passes do with an indented line *)

Lemma adjacent_all_at (P : line -> line -> bool) (xs : list line)
    (a b : line) (ys : list line) :
  adjacent_all P (xs ++ a :: b :: ys) = true -> P a b = true.
Proof.
  intros H. apply adjacent_all_app_r in H. cbn [adjacent_all] in H.
  now apply andb_true_iff in H.
Qed.

(** ensure_single_blank_between_items puts nothing before a line that is
    no item start. *)
Lemma ensure_split (tbl : char -> bool) (xs : list line) (a l : line)
    (ys : list line) :
  starts_item tbl l = false ->
  ensure_loop tbl [] (xs ++ a :: l :: ys)
  = ensure_loop tbl [] (xs ++ [a]) ++ ensure_loop tbl [] (l :: ys).
Proof.
  intros Hl. induction xs as [|x xs IH].
  - cbn [app]. rewrite (ensure_cons tbl a (l :: ys)), (ensure_cons tbl a []).
    unfold needs_sep. now rewrite Hl.
  - cbn [app]. rewrite (ensure_cons tbl x (xs ++ a :: l :: ys)),
      (ensure_cons tbl x (xs ++ [a])), needs_sep_head, IH.
    cbn [app]. now rewrite <- app_assoc.
Qed.

Lemma ensure_last (tbl : char -> bool) (xs : list line) (a : line) :
  last (ensure_loop tbl [] (xs ++ [a])) [] = a.
Proof.
  induction xs as [|x xs IH]; [reflexivity|].
  cbn [app]. rewrite (ensure_cons tbl x (xs ++ [a])).
  destruct (ensure_loop tbl [] (xs ++ [a])) as [|y t] eqn:E.
  - destruct xs; cbn [app] in E; rewrite ensure_cons in E; discriminate.
  - destruct (needs_sep tbl x (xs ++ [a])); cbn [app]; exact IH.
Qed.

(** In the output of group_import_blocks a line next to an import line is
    an import line or a blank line. *)
Lemma group_output_neighbours (tbl : char -> bool) (ls xs : list line)
    (a b : line) (ys : list line) :
  group_import_blocks tbl ls = xs ++ a :: b :: ys ->
  (is_import tbl a = true -> is_import tbl b = false -> is_blank b = true)
  /\ (is_import tbl b = true -> is_import tbl a = false ->
      is_blank a = true).
Proof.
  intros E.
  assert (H : rule_import_blocks tbl (group_import_blocks tbl ls) = true).
  { unfold group_import_blocks. rewrite group_loop_emit by lia.
    apply group_sets_rule. }
  rewrite E in H. unfold rule_import_blocks in H.
  apply adjacent_all_at in H. apply andb_true_iff in H.
  destruct H as [H1 H2]. split.
  - intros Ha Hb. rewrite Ha, Hb in H2. exact H2.
  - intros Hb Ha. rewrite Ha, Hb in H1. exact H1.
Qed.

(** C8, amended.  The patterns of both passes are matched against the line
    as read, from its first character: a line that begins with a whitespace
    character (an indented declaration or import) is neither an import for
    group_import_blocks nor an item start for
    ensure_single_blank_between_items, though its unindented form may be
    both, as [use a::b;] is.  So ensure_single_blank_between_items never
    puts a blank line directly before such a line, and in the output of
    group_import_blocks such a line, when it is not blank, is never next to
    an import line: it is part of no block of imports. *)
Theorem indented_line_unclassified (tbl : char -> bool) (c : char)
    (rest : str) :
  isspace c = true ->
  is_import tbl (c :: rest) = false
  /\ starts_item tbl (c :: rest) = false
  /\ (strip indented_use = strip plain_use
      /\ is_import tbl plain_use = true
      /\ starts_item tbl plain_use = true)
  /\ (forall xs a ys,
        ensure_single_blank_between_items tbl (xs ++ a :: (c :: rest) :: ys)
        = ensure_single_blank_between_items tbl (xs ++ [a])
          ++ ensure_single_blank_between_items tbl ((c :: rest) :: ys)
        /\ last (ensure_single_blank_between_items tbl (xs ++ [a])) [] = a
        /\ hd [] (ensure_single_blank_between_items tbl ((c :: rest) :: ys))
           = c :: rest)
  /\ (forall ls xs a b ys,
        is_blank (c :: rest) = false ->
        group_import_blocks tbl ls = xs ++ a :: b :: ys ->
        (a = c :: rest -> is_import tbl b = false)
        /\ (b = c :: rest -> is_import tbl a = false)).
Proof.
  intros Hc.
  assert (H : is_import tbl (c :: rest) = false
              /\ starts_item tbl (c :: rest) = false).
  { unfold is_import, starts_item, re_match. cbn -[startswith].
    rewrite !startswith_space by (exact Hc || reflexivity).
    split; reflexivity. }
  destruct H as [Hi Hs].
  split; [exact Hi|]. split; [exact Hs|]. split; [|split].
  - repeat apply conj; vm_compute; reflexivity.
  - intros xs a ys. unfold ensure_single_blank_between_items.
    split; [now apply ensure_split|]. split; [apply ensure_last|].
    now rewrite ensure_cons.
  - intros ls xs a b ys Hb E.
    destruct (@group_output_neighbours tbl ls xs a b ys E) as [H1 H2].
    split; intros ->.
    + destruct (is_import tbl b) eqn:Eb; [|reflexivity].
      rewrite (H2 eq_refl Hi) in Hb. discriminate.
    + destruct (is_import tbl a) eqn:Ea; [|reflexivity].
      rewrite (H1 eq_refl Hi) in Hb. discriminate.
Qed.

Lemma indented_line_unclassified_witness :
  is_import no_alnum indented_use = false
  /\ starts_item no_alnum indented_use = false.
Proof.
  destruct (@indented_line_unclassified no_alnum 32%N
              (lit "   use a::b;" ++ nl) eq_refl) as (H1 & H2 & _).
  split; assumption.
Defined.

(** An indented import beside classified lines: it ends the block of the
    import before it, where the same line unindented would join the block,
    and it is separated from the item after it as any other line is. *)
Example indented_use_neighbours :
  group_import_blocks no_alnum [plain_use; indented_use]
  = [plain_use; nl; indented_use]
  /\ group_import_blocks no_alnum [plain_use; plain_use]
     = [plain_use; plain_use]
  /\ ensure_single_blank_between_items no_alnum
       [indented_use; ln "fn main() {}"]
     = [indented_use; nl; ln "fn main() {}"].
Proof. repeat apply conj; vm_compute; reflexivity. Qed.
